(** * simple-chat: the state transitions of [src/App.tsx]

    A shallow embedding of the [App] component: the React state
    ([conversations], [currentConversation], [inputText], [isListening]),
    the event handlers that update it, and the delayed echo reply that
    [handleSendMessage] schedules with [setTimeout].

    Handlers are closures over the values of the render they were created
    in; a [setTimeout] callback keeps that render's values until it runs.
    The model keeps this: a pending timeout stores the render snapshot it
    closed over, and its callback reads only that snapshot. *)

From Stdlib Require Import String Ascii.
From stdpp Require Import base tactics option numbers list sorting.

Local Open Scope N_scope.

(** ** JavaScript strings

    A JavaScript string is a sequence of UTF-16 code units; [length],
    [slice] and [trim] all work on code units. *)

Abbreviation jsstring := (list N).

(** A string literal of the source (ASCII only). *)
Definition lit (s : string) : jsstring :=
  N_of_ascii <$> list_ascii_of_string s.

(** The code units [String.prototype.trim] strips: ECMAScript WhiteSpace
    (TAB, VT, FF, ZWNBSP and the Unicode space separators) and
    LineTerminator (LF, CR, LS, PS). *)
Definition isWhiteSpace (c : N) : bool :=
  (9 <=? c) && (c <=? 13)
  || (c =? 32) || (c =? 160) || (c =? 5760)
  || (8192 <=? c) && (c <=? 8202)
  || (c =? 8232) || (c =? 8233) || (c =? 8239) || (c =? 8287)
  || (c =? 12288) || (c =? 65279).

Fixpoint trimStart (s : jsstring) : jsstring :=
  match s with
  | c :: s' => if isWhiteSpace c then trimStart s' else s
  | [] => []
  end.

Definition trimEnd (s : jsstring) : jsstring :=
  reverse (trimStart (reverse s)).

Definition trim (s : jsstring) : jsstring := trimEnd (trimStart s).

(** Truthiness of a string in a condition: every string but [''] . *)
Definition truthy (s : jsstring) : bool :=
  match s with [] => false | _ :: _ => true end.

(** [s.slice(b, e)] for non-negative [b] and [e]. *)
Definition slice (b e : nat) (s : jsstring) : jsstring :=
  take (e - b) (drop b s).

(** ** Data model (lines 4-13) *)

Record Message := mkMessage {
  text : jsstring;
  isUser : bool
}.

Record Conversation := mkConversation {
  id : N;
  title : jsstring;
  messages : list Message
}.

#[global] Instance Message_eq_dec : EqDecision Message.
Proof. solve_decision. Defined.

#[global] Instance Conversation_eq_dec : EqDecision Conversation.
Proof. solve_decision. Defined.

(** The four [useState] cells of [App] (lines 16-19): what one render
    sees, and what the handlers created in that render close over. *)
Record AppState := mkAppState {
  conversations : list Conversation;
  currentConversation : option Conversation;
  inputText : jsstring;
  isListening : bool
}.

#[global] Instance AppState_eq_dec : EqDecision AppState.
Proof. solve_decision. Defined.

Definition setConversations (v : list Conversation) (st : AppState) : AppState :=
  {| conversations := v;
     currentConversation := currentConversation st;
     inputText := inputText st;
     isListening := isListening st |}.

Definition setCurrentConversation (v : option Conversation) (st : AppState) : AppState :=
  {| conversations := conversations st;
     currentConversation := v;
     inputText := inputText st;
     isListening := isListening st |}.

Definition setInputText (v : jsstring) (st : AppState) : AppState :=
  {| conversations := conversations st;
     currentConversation := currentConversation st;
     inputText := v;
     isListening := isListening st |}.

Definition setIsListening (v : bool) (st : AppState) : AppState :=
  {| conversations := conversations st;
     currentConversation := currentConversation st;
     inputText := inputText st;
     isListening := v |}.

(** [{...conv, messages: [...conv.messages, ...extra]}] *)
Definition withMessages (conv : Conversation) (extra : list Message) : Conversation :=
  {| id := id conv; title := title conv; messages := messages conv ++ extra |}.

(** [convs.map(conv => conv.id === cur.id ? updated : conv)] *)
Definition replaceById (cur updated : Conversation) (convs : list Conversation)
  : list Conversation :=
  (fun conv => if id conv =? id cur then updated else conv) <$> convs.

(** ** The delayed reply (lines 81-93)

    The callback handed to [setTimeout] is kept as data: the time it is
    due, the render snapshot [scope] it closed over ([inputText],
    [currentConversation] and [conversations] of the render that created
    [handleSendMessage]) and the [newMessage] constant of the send. *)
Record Timeout := mkTimeout {
  due : N;
  scope : AppState;
  newMessage : Message
}.

#[global] Instance Timeout_eq_dec : EqDecision Timeout.
Proof. solve_decision. Defined.

(** Line 82. *)
Definition botResponse (t : Timeout) : Message :=
  {| text := lit "You said: " ++ inputText (scope t); isUser := false |}.

(** Lines 83-92: run against whatever the state is when the timer fires. *)
Definition timeoutCallback (t : Timeout) (st : AppState) : AppState :=
  match currentConversation (scope t) with
  | Some cur =>
      let updatedConversation := withMessages cur [newMessage t; botResponse t] in
      setConversations
        (replaceById cur updatedConversation (conversations (scope t)))
        (setCurrentConversation (Some updatedConversation) st)
  | None => st
  end.

(** ** The running component

    The current state, the timers not yet fired (in the order they were
    set), the clock in milliseconds ([Date.now()]), and whether the
    browser offers speech recognition (line 22-23).

    One clock serves the timers and [Date.now()], and [elapse] alone
    moves it, forward. The browser's wall clock can also be set apart
    from the timers: where the order of ids is at stake,
    [handleSendMessageAt] and [runAt] take the reading of [Date.now()]
    as an input of its own. *)
Record World := mkWorld {
  app : AppState;
  pending : list Timeout;
  clock : N;
  recognition : bool
}.

#[global] Instance World_eq_dec : EqDecision World.
Proof. solve_decision. Defined.

Definition withApp (f : AppState -> AppState) (w : World) : World :=
  {| app := f (app w); pending := pending w; clock := clock w;
     recognition := recognition w |}.

(** Line 72. *)
Definition makeTitle (inputText : jsstring) : jsstring :=
  slice 0 30 inputText ++ (if (30 <? length inputText)%nat then lit "..." else lit "").

(** Lines 57-95. *)
Definition handleSendMessage (w : World) : World :=
  let st := app w in
  if truthy (trim (inputText st)) then
    let newMessage := {| text := inputText st; isUser := true |} in
    let st1 :=
      match currentConversation st with
      | Some cur =>
          let updatedConversation := withMessages cur [newMessage] in
          setConversations
            (replaceById cur updatedConversation (conversations st))
            (setCurrentConversation (Some updatedConversation) st)
      | None =>
          let newConversation :=
            {| id := clock w;
               title := makeTitle (inputText st);
               messages := [newMessage] |} in
          setConversations
            (conversations st ++ [newConversation])
            (setCurrentConversation (Some newConversation) st)
      end in
    {| app := setInputText (lit "") st1;
       pending := pending w ++
                  [{| due := clock w + 1000; scope := st; newMessage := newMessage |}];
       clock := clock w;
       recognition := recognition w |}
  else w.

(** Lines 110-112. *)
Definition startNewConversation (w : World) : World :=
  withApp (setCurrentConversation None) w.

(** Lines 114-116. *)
Definition selectConversation (conversation : Conversation) (w : World) : World :=
  withApp (setCurrentConversation (Some conversation)) w.

(** Line 150: [onChange] of the input box. *)
Definition onChange (value : jsstring) (w : World) : World :=
  withApp (setInputText value) w.

(** ** Speech input (lines 25-47, 97-108)

    A [SpeechRecognitionResult] is indexed by alternative; the DOM typing
    the handler is written against gives [result[0]] the type
    [SpeechRecognitionAlternative], so a result carries a first
    alternative and the remaining ones. *)
Record SpeechRecognitionAlternative := mkAlternative {
  transcript : jsstring
}.

Record SpeechRecognitionResult := mkResult {
  isFinal : bool;
  item0 : SpeechRecognitionAlternative;
  alternatives : list SpeechRecognitionAlternative
}.

Record SpeechRecognitionEvent := mkEvent {
  results : list SpeechRecognitionResult
}.

(** Lines 32-34: [Array.from(event.results).map(r => r[0].transcript).join('')] *)
Definition eventTranscript (event : SpeechRecognitionEvent) : jsstring :=
  concat ((fun result => transcript (item0 result)) <$> results event).

(** Lines 31-36. *)
Definition onresult (event : SpeechRecognitionEvent) (w : World) : World :=
  withApp (setInputText (eventTranscript event)) w.

(** Lines 38-41 (the console log is not modelled). Which recognition
    object emits the events is not modelled either: they are taken as
    they come. *)
Definition onerror (w : World) : World := withApp (setIsListening false) w.

(** Lines 43-45. *)
Definition onend (w : World) : World := withApp (setIsListening false) w.

(** Lines 97-108. [recognition.stop()] changes no state by itself: the
    [onend] event that follows does. The [alert] is not modelled. *)
Definition toggleListening (w : World) : World :=
  if recognition w then
    if isListening (app w) then w
    else withApp (setIsListening true) w
  else w.

(** ** Time

    [elapse dt] lets [dt] milliseconds pass with no user event: every
    pending timeout that has come due runs, in the order they were set. *)
Definition isDue (t : N) (tm : Timeout) : bool := due tm <=? t.

(** Running a batch of due callbacks, first set first. *)
Definition fire (tms : list Timeout) (st : AppState) : AppState :=
  foldl (fun st tm => timeoutCallback tm st) st tms.

Definition elapse (dt : N) (w : World) : World :=
  let t := clock w + dt in
  {| app := fire (filter (fun tm => isDue t tm = true) (pending w)) (app w);
     pending := filter (fun tm => isDue t tm <> true) (pending w);
     clock := t;
     recognition := recognition w |}.

(** ** Events of the component *)
Inductive Action :=
  | Type_ (value : jsstring)
  | Send
  | NewConversation
  | Select (conversation : Conversation)
  | ToggleListening
  | SpeechResult (event : SpeechRecognitionEvent)
  | SpeechError
  | SpeechEnd
  | Elapse (dt : N).

Definition step (a : Action) (w : World) : World :=
  match a with
  | Type_ value => onChange value w
  | Send => handleSendMessage w
  | NewConversation => startNewConversation w
  | Select conversation => selectConversation conversation w
  | ToggleListening => toggleListening w
  | SpeechResult event => onresult event w
  | SpeechError => onerror w
  | SpeechEnd => onend w
  | Elapse dt => elapse dt w
  end.

(** The sidebar renders one clickable row per stored conversation
    (lines 180-183), so a click can only select one of those. *)
Definition offered (a : Action) (w : World) : Prop :=
  match a with
  | Select conversation => conversation ∈ conversations (app w)
  | _ => True
  end.

Definition run (trace : list Action) (w : World) : World :=
  foldl (fun w a => step a w) w trace.

(** The component as first mounted. *)
Definition initial (t0 : N) (speech : bool) : World :=
  {| app := {| conversations := []; currentConversation := None;
               inputText := lit ""; isListening := false |};
     pending := [];
     clock := t0;
     recognition := speech |}.

Inductive reachable : World -> Prop :=
  | reachable_initial t0 speech : reachable (initial t0 speech)
  | reachable_step a w : reachable w -> offered a w -> reachable (step a w).

(** ** Derived notions used by the statements below *)

(** A draft that is empty or made of white space only: what the guard
    of line 58 rejects (lemma [truthy_trim]). *)
Definition blank (s : jsstring) : bool := forallb isWhiteSpace s.

(** The two messages of one exchange: [newMessage] (line 59) and
    [botResponse] (line 82) for a given draft. *)
Definition sentMessage (draft : jsstring) : Message :=
  {| text := draft; isUser := true |}.

Definition echoMessage (draft : jsstring) : Message :=
  {| text := lit "You said: " ++ draft; isUser := false |}.

(** A conversation that starts with a user message and is titled from
    it. *)
Definition titled (c : Conversation) : Prop :=
  exists m rest,
    messages c = m :: rest /\ isUser m = true /\ title c = makeTitle (text m).

(** A render state whose stored conversations are all [titled] and
    whose active conversation is one of them. *)
Definition consistent (st : AppState) : Prop :=
  Forall titled (conversations st)
  /\ forall c, currentConversation st = Some c -> c ∈ conversations st.

(** The same for the current state and for every snapshot a pending
    timer holds. *)
Definition wellFormed (w : World) : Prop :=
  consistent (app w) /\ Forall (fun tm => consistent (scope tm)) (pending w).

(** Pending timers listed by due time, none due later than a second
    from now: what makes "in the order they were set" the order in which
    the browser runs them. *)
Definition inOrder (w : World) : Prop :=
  StronglySorted (fun a b => due a <= due b) (pending w)
  /\ Forall (fun tm => due tm <= clock w + 1000) (pending w).

(** ** Sample runs *)

(** A draft typed into the freshly mounted component. *)
Definition typedHi : World := run [Type_ (lit "Hi")] (initial 0 true).

(** A draft with white space around it, typed while a conversation
    created two seconds earlier is active. *)
Definition typedPadded : World :=
  run [Type_ (lit "first"); Send; Elapse 2000; Type_ (lit "  hi there ")]
      (initial 0 true).

(** A draft of 37 code units, typed into the freshly mounted component. *)
Definition typedLong : World :=
  run [Type_ (lit "Hello there, how are you today friend")] (initial 0 true).

(** Two stored conversations, ids 0 and 2000, one message each, the
    younger one active. *)
Definition twoConversations : World :=
  run [Type_ (lit "a"); Send; Elapse 2000;
       NewConversation; Type_ (lit "b"); Send; Elapse 2000]
      (initial 0 true).

(** The two conversations [twoConversations] stores. *)
Definition conversationA : Conversation :=
  {| id := 0; title := lit "a"; messages := [sentMessage (lit "a")] |}.

Definition conversationB : Conversation :=
  {| id := 2000; title := lit "b"; messages := [sentMessage (lit "b")] |}.

(** The older one selected again and a draft typed for it. *)
Definition draftForA : World :=
  run [Select conversationA; Type_ (lit "x")] twoConversations.

(** Conversation 0 with ["Hi"] in it; then ["b"] sent at 1000 and ["c"]
    at 1100, both into that conversation, both replies still pending. *)
Definition twoSendsInFlight : World :=
  run [Send; Elapse 1000; Type_ (lit "b"); Send; Elapse 100;
       Type_ (lit "c"); Send]
      typedHi.

(** Conversation 0 active with a reply pending, then a second
    conversation started and created at 1500. *)
Definition newConversationInFlight : World :=
  run [Send; Elapse 1000; Type_ (lit "b"); Send; Elapse 500;
       NewConversation; Type_ (lit "n"); Send]
      typedHi.

(** ** Two properties the component does not have *)

(** Selection by id that silently fails, read as a property of
    [selectConversation]: selecting a conversation whose id no stored
    conversation has leaves the active conversation as it was. *)
Definition selectAbsentIsNoop (conversation : Conversation) (w : World) : Prop :=
  (forall c, c ∈ conversations (app w) -> id c <> id conversation) ->
  currentConversation (app (selectConversation conversation w))
  = currentConversation (app w).

(** A reply that lands on whatever is active when it fires: after a
    send, a switch to [other] and the second that the reply takes, the
    stored conversation with [other]'s id has gained the user message and
    the reply. *)
Definition replyFollowsActive (other : Conversation) (w : World) : Prop :=
  let draft := inputText (app w) in
  let w' := elapse 1000 (selectConversation other (handleSendMessage w)) in
  exists c,
    c ∈ conversations (app w') /\ id c = id other
    /\ messages c = messages other ++ [sentMessage draft; echoMessage draft].

(** ** The rest of the component: key presses and the view *)

(** Line 151: [onKeyPress] of the input box,
    [e.key === 'Enter' && handleSendMessage()]. *)
Definition onKeyPress (key : jsstring) (w : World) : World :=
  if decide (key = lit "Enter") then handleSendMessage w else w.

(** Lines 125-142: one row per message of the active conversation, or
    nothing when there is none ([currentConversation?.messages.map]).
    A row is kept by what the JSX computes: its [key], the class of the
    outer [div], the class of the bubble and the text shown. *)
Record MessageRow := mkMessageRow {
  rowKey : nat;
  rowClass : jsstring;
  bubbleClass : jsstring;
  bubbleText : jsstring
}.

Definition renderMessage (index : nat) (message : Message) : MessageRow :=
  {| rowKey := index;
     rowClass :=
       lit "mb-4 " ++ (if isUser message then lit "text-right" else lit "text-left");
     bubbleClass :=
       lit "inline-block p-2 rounded-lg "
       ++ (if isUser message then lit "bg-blue-500 text-white"
           else lit "bg-gray-300 text-black");
     bubbleText := text message |}.

Definition renderMessages (st : AppState) : list MessageRow :=
  match currentConversation st with
  | Some cur => imap renderMessage (messages cur)
  | None => []
  end.

(** Lines 180-191: one sidebar entry per stored conversation: its [key],
    its class, the title shown and the conversation its [onClick] hands
    to [selectConversation]. *)
Record SidebarEntry := mkSidebarEntry {
  entryKey : N;
  entryClass : jsstring;
  entryLabel : jsstring;
  entryClick : Conversation
}.

(** Line 185: [currentConversation?.id === conv.id]; [undefined] is
    equal to no number. *)
Definition isCurrent (st : AppState) (conv : Conversation) : bool :=
  match currentConversation st with
  | Some cur => id cur =? id conv
  | None => false
  end.

Definition renderEntry (st : AppState) (conv : Conversation) : SidebarEntry :=
  {| entryKey := id conv;
     entryClass :=
       lit "p-2 mb-2 rounded cursor-pointer flex items-center "
       ++ (if isCurrent st conv then lit "bg-blue-100" else lit "hover:bg-gray-300");
     entryLabel := title conv;
     entryClick := conv |}.

Definition renderSidebar (st : AppState) : list SidebarEntry :=
  renderEntry st <$> conversations st.

(** The class of a highlighted sidebar entry. *)
Definition highlightedClass : jsstring :=
  lit "p-2 mb-2 rounded cursor-pointer flex items-center bg-blue-100".

(** ** Further notions for the properties of whole runs *)

(** Message lists grown the way the handlers grow them: by a user
    message with a draft that passed the guard, or by such a message
    followed by its echo. *)
Inductive exchanges : list Message -> Prop :=
  | exchanges_nil : exchanges []
  | exchanges_user l draft :
      exchanges l -> blank draft = false ->
      exchanges (l ++ [sentMessage draft])
  | exchanges_echo l draft :
      exchanges l -> blank draft = false ->
      exchanges (l ++ [sentMessage draft; echoMessage draft]).

Definition stateExchanges (st : AppState) : Prop :=
  Forall (fun c => exchanges (messages c)) (conversations st)
  /\ forall c, currentConversation st = Some c -> exchanges (messages c).

Definition worldExchanges (w : World) : Prop :=
  stateExchanges (app w)
  /\ Forall (fun tm => stateExchanges (scope tm)
                       /\ newMessage tm = sentMessage (inputText (scope tm))
                       /\ blank (inputText (scope tm)) = false)
            (pending w).

(** Stored ids in ascending order, none later than time [t]. *)
Definition stateIds (t : N) (st : AppState) : Prop :=
  StronglySorted N.le (id <$> conversations st)
  /\ Forall (fun i => i <= t) (id <$> conversations st).

Definition worldIdsAt (t : N) (w : World) : Prop :=
  stateIds t (app w)
  /\ Forall (fun tm => stateIds t (scope tm)) (pending w).

(** [handleSendMessage] with the reading of [Date.now()] (line 71)
    given apart from the clock the timers run on: the wall clock can be
    set while the timers keep running. *)
Definition handleSendMessageAt (stamp : N) (w : World) : World :=
  let st := app w in
  if truthy (trim (inputText st)) then
    let newMessage := {| text := inputText st; isUser := true |} in
    let st1 :=
      match currentConversation st with
      | Some cur =>
          let updatedConversation := withMessages cur [newMessage] in
          setConversations
            (replaceById cur updatedConversation (conversations st))
            (setCurrentConversation (Some updatedConversation) st)
      | None =>
          let newConversation :=
            {| id := stamp;
               title := makeTitle (inputText st);
               messages := [newMessage] |} in
          setConversations
            (conversations st ++ [newConversation])
            (setCurrentConversation (Some newConversation) st)
      end in
    {| app := setInputText (lit "") st1;
       pending := pending w ++
                  [{| due := clock w + 1000; scope := st; newMessage := newMessage |}];
       clock := clock w;
       recognition := recognition w |}
  else w.

(** An event together with what [Date.now()] reads when it is handled. *)
Definition stepAt (e : N * Action) (w : World) : World :=
  match e.2 with
  | Send => handleSendMessageAt e.1 w
  | a => step a w
  end.

Definition runAt (events : list (N * Action)) (w : World) : World :=
  foldl (fun w e => stepAt e w) w events.

(** Events that are neither a send nor the passing of time. *)
Definition quiet (a : Action) : bool :=
  match a with
  | Send | Elapse _ => false
  | _ => true
  end.

(** Events of the input box and the microphone only. *)
Definition inputOnly (a : Action) : bool :=
  match a with
  | Type_ _ | ToggleListening | SpeechResult _ | SpeechError | SpeechEnd => true
  | _ => false
  end.

(** The reply that decides the outcome of a batch of due timers: the
    last one whose send had an active conversation. *)
Definition writes (tm : Timeout) : bool :=
  match currentConversation (scope tm) with Some _ => true | None => false end.

Definition lastWriter (tms : list Timeout) : option Timeout :=
  last (filter (fun tm => writes tm = true) tms).

(** ** Titles over a run *)

(** Every conversation a state holds: the stored ones and the active
    one. *)
Definition stateKnown (st : AppState) : list Conversation :=
  conversations st ++ option_list (currentConversation st).

(** Every conversation the component holds: those of the current state
    and those of the snapshots kept by pending replies. *)
Definition known (w : World) : list Conversation :=
  stateKnown (app w)
  ++ concat ((fun tm => stateKnown (scope tm)) <$> pending w).

(** An id with the title found under it. *)
Definition tag (c : Conversation) : N * jsstring := (id c, title c).

(** No id is found under two titles. *)
Definition oneTitlePerId (convs : list Conversation) : Prop :=
  forall c1 c2, c1 ∈ convs -> c2 ∈ convs -> id c1 = id c2 -> title c1 = title c2.

(** The events that create a conversation: a send that passes the guard
    of line 58 with no active conversation (lines 69-77). *)
Definition creating (a : Action) (w : World) : bool :=
  match a with
  | Send =>
      negb (blank (inputText (app w)))
      && match currentConversation (app w) with None => true | Some _ => false end
  | _ => false
  end.

(** A run the component offers in which no creation timestamp is used
    twice: [used] lists the ids taken so far. *)
Fixpoint freshRun (used : list N) (w : World) (trace : list Action) : Prop :=
  match trace with
  | [] => True
  | a :: rest =>
      offered a w
      /\ (if creating a w
          then (clock w ∉ used) /\ freshRun (clock w :: used) (step a w) rest
          else freshRun used (step a w) rest)
  end.

(** Titles that stay put entry by entry across one event. *)
Definition titlesKept (a : Action) (w : World) : Prop :=
  forall i c c',
    conversations (app w) !! i = Some c ->
    conversations (app (step a w)) !! i = Some c' ->
    title c' = title c.

(** Two conversations created in the same millisecond, titled ["a"] and
    ["b"], the second active, and a draft typed. *)
Definition sharedIdDraft : World :=
  run [Type_ (lit "a"); Send; NewConversation; Type_ (lit "b"); Send;
       Type_ (lit "x")]
      (initial 0 true).

(** ** New Conversation, then a send *)





(** ** Strings: [trim] and [slice] *)

Section Strings.
Implicit Types s : jsstring.

Lemma lit_empty : lit "" = [].
Proof. reflexivity. Qed.

(** Space, no-break space and line separator are stripped by [trim];
    the zero-width space U+200B and letters are not. *)
Example isWhiteSpace_samples :
  isWhiteSpace <$> [32; 160; 8232; 8203; 97] = [true; true; true; false; false].
Proof. reflexivity. Qed.

Example trim_sample : trim (lit "  hi there ") = lit "hi there".
Proof. reflexivity. Qed.

Lemma trimStart_nil s : trimStart s = [] <-> blank s = true.
Proof.
  induction s as [|c s IH]; simpl; [tauto|].
  destruct (isWhiteSpace c); simpl; [exact IH|]. split; discriminate.
Qed.

Lemma blank_app s1 s2 : blank (s1 ++ s2) = blank s1 && blank s2.
Proof. apply forallb_app. Qed.

Lemma blank_reverse s : blank (reverse s) = blank s.
Proof.
  induction s as [|c s IH]; [reflexivity|].
  rewrite reverse_cons, blank_app, IH. simpl.
  rewrite andb_true_r. apply andb_comm.
Qed.

Lemma trimEnd_nil s : trimEnd s = [] <-> blank s = true.
Proof.
  unfold trimEnd. rewrite <- (blank_reverse s), <- trimStart_nil.
  split; intros H.
  - apply (f_equal reverse) in H. now rewrite reverse_involutive in H.
  - now rewrite H.
Qed.

(** What [trimStart] leaves is empty or starts with a visible code unit. *)
Lemma trimStart_blank s : blank (trimStart s) = true -> trimStart s = [].
Proof.
  induction s as [|c s IH]; simpl; [reflexivity|].
  destruct (isWhiteSpace c) eqn:E; [exact IH|].
  simpl. rewrite E. discriminate.
Qed.

Lemma trim_nil s : trim s = [] <-> blank s = true.
Proof.
  unfold trim. rewrite trimEnd_nil. split; intros H.
  - now apply trimStart_nil, trimStart_blank.
  - apply trimStart_nil in H. now rewrite H.
Qed.

(** The guard of line 58. *)
Lemma truthy_trim s : truthy (trim s) = negb (blank s).
Proof.
  destruct (blank s) eqn:E.
  - apply trim_nil in E. now rewrite E.
  - destruct (trim s) eqn:T; [|reflexivity].
    apply trim_nil in T. congruence.
Qed.

Lemma slice_0 n s : slice 0 n s = take n s.
Proof. unfold slice. now rewrite Nat.sub_0_r, drop_0. Qed.

Lemma makeTitle_short s : (length s <= 30)%nat -> makeTitle s = s.
Proof.
  intros H. unfold makeTitle. rewrite slice_0, take_ge by exact H.
  destruct (Nat.ltb_spec 30 (length s)); [lia|]. apply app_nil_r.
Qed.

Lemma makeTitle_long s :
  (30 < length s)%nat -> makeTitle s = take 30 s ++ lit "...".
Proof.
  intros H. unfold makeTitle. rewrite slice_0.
  destruct (Nat.ltb_spec 30 (length s)); [reflexivity|lia].
Qed.

Lemma makeTitle_length s : (length (makeTitle s) <= 33)%nat.
Proof.
  destruct (Nat.le_gt_cases (length s) 30) as [H|H].
  - rewrite makeTitle_short by exact H. lia.
  - rewrite makeTitle_long by exact H.
    rewrite length_app, length_take.
    change (length (lit "...")) with 3%nat. lia.
Qed.
End Strings.

(** ** [replaceById] *)

Section ReplaceById.
Implicit Types (cur updated conv : Conversation) (convs : list Conversation).

Lemma replaceById_length cur updated convs :
  length (replaceById cur updated convs) = length convs.
Proof. apply length_fmap. Qed.

Lemma replaceById_lookup cur updated convs i conv :
  convs !! i = Some conv ->
  replaceById cur updated convs !! i
  = Some (if id conv =? id cur then updated else conv).
Proof. intros H. unfold replaceById. now rewrite list_lookup_fmap, H. Qed.

Lemma replaceById_other cur updated convs i conv :
  convs !! i = Some conv -> id conv <> id cur ->
  replaceById cur updated convs !! i = Some conv.
Proof.
  intros H Hne. rewrite (replaceById_lookup _ _ _ _ _ H).
  destruct (N.eqb_spec (id conv) (id cur)); congruence.
Qed.

Lemma replaceById_same cur updated convs i conv :
  convs !! i = Some conv -> id conv = id cur ->
  replaceById cur updated convs !! i = Some updated.
Proof.
  intros H He. rewrite (replaceById_lookup _ _ _ _ _ H).
  now rewrite He, N.eqb_refl.
Qed.

Lemma replaceById_elem cur updated convs :
  cur ∈ convs -> updated ∈ replaceById cur updated convs.
Proof.
  intros [i Hi]%list_elem_of_lookup. apply list_elem_of_lookup. exists i.
  now apply replaceById_same with (conv := cur).
Qed.

Lemma replaceById_Forall (P : Conversation -> Prop) cur updated convs :
  Forall P convs -> P updated -> Forall P (replaceById cur updated convs).
Proof.
  intros H Hu. unfold replaceById. apply Forall_fmap.
  induction H as [|conv convs Hc _ IH]; constructor; [|exact IH].
  simpl. now destruct (id conv =? id cur).
Qed.
End ReplaceById.

(** ** [handleSendMessage], case by case *)

Section Send.
Variable w : World.
Let draft := inputText (app w).

Lemma handleSendMessage_blank :
  blank draft = true -> handleSendMessage w = w.
Proof.
  intros H. unfold handleSendMessage. fold draft.
  now rewrite truthy_trim, H.
Qed.

Lemma handleSendMessage_active cur :
  blank draft = false -> currentConversation (app w) = Some cur ->
  handleSendMessage w =
  {| app :=
       {| conversations :=
            replaceById cur (withMessages cur [sentMessage draft])
                        (conversations (app w));
          currentConversation := Some (withMessages cur [sentMessage draft]);
          inputText := [];
          isListening := isListening (app w) |};
     pending := pending w ++
       [{| due := clock w + 1000; scope := app w;
           newMessage := sentMessage draft |}];
     clock := clock w;
     recognition := recognition w |}.
Proof.
  intros H Hc. unfold handleSendMessage. fold draft.
  now rewrite truthy_trim, H, Hc.
Qed.

Lemma handleSendMessage_fresh :
  blank draft = false -> currentConversation (app w) = None ->
  handleSendMessage w =
  {| app :=
       {| conversations :=
            conversations (app w) ++
            [{| id := clock w; title := makeTitle draft;
                messages := [sentMessage draft] |}];
          currentConversation :=
            Some {| id := clock w; title := makeTitle draft;
                    messages := [sentMessage draft] |};
          inputText := [];
          isListening := isListening (app w) |};
     pending := pending w ++
       [{| due := clock w + 1000; scope := app w;
           newMessage := sentMessage draft |}];
     clock := clock w;
     recognition := recognition w |}.
Proof.
  intros H Hc. unfold handleSendMessage. fold draft.
  now rewrite truthy_trim, H, Hc.
Qed.
End Send.

(** ** Timers *)

Section Timers.
Implicit Types (tm : Timeout) (st : AppState) (w : World).

Lemma elapse_unfold dt w :
  elapse dt w =
  {| app := fire (filter (fun tm => isDue (clock w + dt) tm = true) (pending w))
                 (app w);
     pending := filter (fun tm => isDue (clock w + dt) tm <> true) (pending w);
     clock := clock w + dt;
     recognition := recognition w |}.
Proof. reflexivity. Qed.

Lemma timeoutCallback_active tm st cur :
  currentConversation (scope tm) = Some cur ->
  timeoutCallback tm st =
  {| conversations :=
       replaceById cur (withMessages cur [newMessage tm; botResponse tm])
                   (conversations (scope tm));
     currentConversation :=
       Some (withMessages cur [newMessage tm; botResponse tm]);
     inputText := inputText st;
     isListening := isListening st |}.
Proof. intros H. unfold timeoutCallback. now rewrite H. Qed.

Lemma timeoutCallback_fresh tm st :
  currentConversation (scope tm) = None -> timeoutCallback tm st = st.
Proof. intros H. unfold timeoutCallback. now rewrite H. Qed.

Lemma fire_app tms1 tms2 st : fire (tms1 ++ tms2) st = fire tms2 (fire tms1 st).
Proof. apply foldl_app. Qed.

(** The callbacks write the two conversation cells only. *)
Lemma fire_inputText tms st : inputText (fire tms st) = inputText st.
Proof.
  revert st. induction tms as [|tm tms IH]; intros st; [reflexivity|].
  simpl. rewrite IH. unfold timeoutCallback.
  now destruct (currentConversation (scope tm)).
Qed.

Lemma fire_isListening tms st : isListening (fire tms st) = isListening st.
Proof.
  revert st. induction tms as [|tm tms IH]; intros st; [reflexivity|].
  simpl. rewrite IH. unfold timeoutCallback.
  now destruct (currentConversation (scope tm)).
Qed.

(** The timer set last fires last. *)
Lemma elapse_last_due dt w old tm :
  pending w = old ++ [tm] -> due tm <= clock w + dt ->
  app (elapse dt w)
  = timeoutCallback tm
      (fire (filter (fun tm => isDue (clock w + dt) tm = true) old) (app w))
  /\ pending (elapse dt w)
     = filter (fun tm => isDue (clock w + dt) tm <> true) old.
Proof.
  intros Hp Hd. rewrite elapse_unfold. simpl. rewrite Hp, !filter_app.
  assert (E : isDue (clock w + dt) tm = true) by now apply N.leb_le.
  rewrite (filter_cons_True _ tm []) by exact E.
  rewrite (filter_cons_False _ tm []) by (rewrite E; tauto).
  rewrite !filter_nil, app_nil_r, fire_app. now split.
Qed.

Lemma elapse_last_early dt w old tm :
  pending w = old ++ [tm] -> clock w + dt < due tm ->
  app (elapse dt w)
  = fire (filter (fun tm => isDue (clock w + dt) tm = true) old) (app w)
  /\ pending (elapse dt w)
     = filter (fun tm => isDue (clock w + dt) tm <> true) old ++ [tm].
Proof.
  intros Hp Hd. rewrite elapse_unfold. simpl. rewrite Hp, !filter_app.
  assert (E : isDue (clock w + dt) tm = false) by now apply N.leb_gt.
  rewrite (filter_cons_False _ tm []) by (rewrite E; discriminate).
  rewrite (filter_cons_True _ tm []) by (rewrite E; discriminate).
  rewrite !filter_nil, app_nil_r. now split.
Qed.
End Timers.

(** ** What every state the component can reach satisfies

    A stored conversation starts with the user message that created it
    and carries the title computed from that message; the active
    conversation is one of the stored ones. The snapshots kept by pending
    timers are earlier states, so they satisfy the same. *)

Section Invariant.
Implicit Types (tm : Timeout) (st : AppState) (w : World) (c : Conversation).

Lemma titled_withMessages c extra : titled c -> titled (withMessages c extra).
Proof.
  intros (m & rest & Hm & Hu & Ht). exists m, (rest ++ extra).
  simpl. now rewrite Hm.
Qed.

Lemma consistent_current_titled st c :
  consistent st -> currentConversation st = Some c -> titled c.
Proof.
  intros [Hall Hcur] Hc.
  exact (proj1 (Forall_forall _ _) Hall c (Hcur c Hc)).
Qed.

Lemma consistent_update st st0 cur extra :
  consistent st0 -> currentConversation st0 = Some cur ->
  consistent
    {| conversations :=
         replaceById cur (withMessages cur extra) (conversations st0);
       currentConversation := Some (withMessages cur extra);
       inputText := inputText st;
       isListening := isListening st |}.
Proof.
  intros H0 Hc. pose proof (consistent_current_titled _ _ H0 Hc) as Ht.
  destruct H0 as [Hall Hcur]. split; simpl.
  - apply replaceById_Forall; [exact Hall|now apply titled_withMessages].
  - intros c [= <-]. apply replaceById_elem. now apply Hcur.
Qed.

Lemma consistent_timeoutCallback tm st :
  consistent (scope tm) -> consistent st -> consistent (timeoutCallback tm st).
Proof.
  intros Htm Hst. destruct (currentConversation (scope tm)) as [cur|] eqn:E.
  - rewrite (timeoutCallback_active _ _ _ E). now apply consistent_update.
  - now rewrite timeoutCallback_fresh.
Qed.

Lemma consistent_fire tms st :
  Forall (fun tm => consistent (scope tm)) tms -> consistent st ->
  consistent (fire tms st).
Proof.
  intros H. revert st. induction H as [|tm tms Htm _ IH]; intros st Hst.
  - exact Hst.
  - simpl. apply IH. now apply consistent_timeoutCallback.
Qed.

Lemma Forall_filter_keep {A} (P : A -> Prop) (Q : A -> Prop)
      `{!forall x, Decision (Q x)} (l : list A) :
  Forall P l -> Forall P (filter Q l).
Proof.
  rewrite !Forall_forall. intros Hl x [_ Hx]%list_elem_of_filter. now apply Hl.
Qed.

Lemma wellFormed_elapse dt w : wellFormed w -> wellFormed (elapse dt w).
Proof.
  intros [Happ Hp]. rewrite elapse_unfold. split; simpl.
  - apply consistent_fire; [now apply Forall_filter_keep|exact Happ].
  - now apply Forall_filter_keep.
Qed.

Lemma wellFormed_handleSendMessage w :
  wellFormed w -> wellFormed (handleSendMessage w).
Proof.
  intros [Happ Hp].
  destruct (blank (inputText (app w))) eqn:Eb.
  { rewrite handleSendMessage_blank by exact Eb. now split. }
  destruct (currentConversation (app w)) as [cur|] eqn:Ec.
  - rewrite (handleSendMessage_active _ _ Eb Ec). split; simpl.
    + exact (consistent_update
               (setInputText [] (app w)) (app w) cur _ Happ Ec).
    + apply Forall_app. split; [exact Hp|].
      constructor; [exact Happ|constructor].
  - rewrite (handleSendMessage_fresh _ Eb Ec). split; simpl.
    + destruct Happ as [Hall _]. split; simpl.
      * apply Forall_app. split; [exact Hall|].
        constructor; [|constructor]. now eexists _, [].
      * intros c [= <-]. apply elem_of_app. right. apply list_elem_of_singleton.
        reflexivity.
    + apply Forall_app. split; [exact Hp|].
      constructor; [exact Happ|constructor].
Qed.

Lemma wellFormed_withApp f w :
  (consistent (app w) -> consistent (f (app w))) ->
  wellFormed w -> wellFormed (withApp f w).
Proof. intros Hf [Happ Hp]. split; simpl; auto. Qed.

Lemma wellFormed_step a w : wellFormed w -> offered a w -> wellFormed (step a w).
Proof.
  intros Hw Ho. destruct a; simpl in *.
  - apply wellFormed_withApp; [|exact Hw]. now intros [? ?].
  - now apply wellFormed_handleSendMessage.
  - apply wellFormed_withApp; [|exact Hw].
    intros [? ?]; split; simpl; [assumption|discriminate].
  - apply wellFormed_withApp; [|exact Hw].
    intros [? ?]; split; simpl; [assumption|]. now intros c [= <-].
  - unfold toggleListening. destruct (recognition w); [|exact Hw].
    destruct (isListening (app w)); [exact Hw|].
    apply wellFormed_withApp; [|exact Hw]. now intros [? ?].
  - apply wellFormed_withApp; [|exact Hw]. now intros [? ?].
  - apply wellFormed_withApp; [|exact Hw]. now intros [? ?].
  - apply wellFormed_withApp; [|exact Hw]. now intros [? ?].
  - now apply wellFormed_elapse.
Qed.

Lemma reachable_wellFormed w : reachable w -> wellFormed w.
Proof.
  induction 1 as [t0 speech|a w _ IH Ho].
  - split; simpl; [split; simpl|]; [constructor|discriminate|constructor].
  - now apply wellFormed_step.
Qed.

Lemma reachable_run trace w :
  reachable w ->
  (forall n a, trace !! n = Some a -> offered a (run (take n trace) w)) ->
  reachable (run trace w).
Proof.
  revert w. induction trace as [|a trace IH] using rev_ind; intros w Hw Ho.
  - exact Hw.
  - unfold run. rewrite foldl_app. simpl. apply reachable_step.
    + apply IH; [exact Hw|]. intros n b Hn.
      pose proof (lookup_lt_Some _ _ _ Hn) as Hlt.
      specialize (Ho n b). rewrite lookup_app_l, take_app_le in Ho by lia.
      now apply Ho.
    + specialize (Ho (length trace) a).
      rewrite take_app_length in Ho. apply Ho.
      now rewrite lookup_app_r, Nat.sub_diag by lia.
Qed.
End Invariant.

(** ** Timers stay ordered *)

Section Order.
Implicit Types (tm : Timeout) (w : World).

Lemma sorted_filter {A} (R : A -> A -> Prop) (Q : A -> Prop)
      `{!forall x, Decision (Q x)} (l : list A) :
  StronglySorted R l -> StronglySorted R (filter Q l).
Proof.
  induction 1 as [|x l Hs IH Hx]; [constructor|].
  destruct (decide (Q x)) as [Hq|Hq].
  - rewrite filter_cons_True by exact Hq.
    constructor; [exact IH|now apply Forall_filter_keep].
  - now rewrite filter_cons_False by exact Hq.
Qed.

Lemma inOrder_withApp f w : inOrder w -> inOrder (withApp f w).
Proof. intros H. exact H. Qed.

Lemma inOrder_handleSendMessage w : inOrder w -> inOrder (handleSendMessage w).
Proof.
  intros [Hs Hb]. unfold handleSendMessage.
  destruct (truthy (trim (inputText (app w)))); [|now split].
  split; simpl.
  - apply StronglySorted_app. split; [|split].
    + intros a b Ha Hb'. apply list_elem_of_singleton in Hb' as ->.
      exact (proj1 (Forall_forall _ _) Hb a Ha).
    + exact Hs.
    + repeat constructor.
  - apply Forall_app. split; [exact Hb|].
    constructor; [simpl; lia|constructor].
Qed.

Lemma inOrder_elapse dt w : inOrder w -> inOrder (elapse dt w).
Proof.
  intros [Hs Hb]. rewrite elapse_unfold. split; simpl.
  - now apply sorted_filter.
  - apply Forall_filter_keep. eapply Forall_impl; [exact Hb|].
    intros tm Htm. simpl in *. lia.
Qed.

Lemma inOrder_step a w : inOrder w -> inOrder (step a w).
Proof.
  intros Hw. destruct a; simpl;
    try (now apply inOrder_withApp);
    try (now apply inOrder_handleSendMessage);
    try (now apply inOrder_elapse).
  unfold toggleListening. destruct (recognition w); [|exact Hw].
  destruct (isListening (app w)); [exact Hw|exact Hw].
Qed.
End Order.

(** ** The send pipeline *)

(** C2: a draft that is neither empty nor white space only is sent as
    exactly one user message: appended to the active conversation (and
    written back to the list at the entries with its id, the list keeping
    its length and its other entries), or, with no active conversation,
    put alone into one new conversation that becomes active and is added
    at the end of the list. Either way the draft becomes the empty string. *)
Theorem send_appends_one_user_message (w : World) :
  blank (inputText (app w)) = false ->
  let draft := inputText (app w) in
  let w' := handleSendMessage w in
  inputText (app w') = []
  /\ match currentConversation (app w) with
     | Some cur =>
         let updated := withMessages cur [sentMessage draft] in
         messages updated = messages cur ++ [{| text := draft; isUser := true |}]
         /\ id updated = id cur /\ title updated = title cur
         /\ currentConversation (app w') = Some updated
         /\ length (conversations (app w')) = length (conversations (app w))
         /\ (forall i conv,
               conversations (app w) !! i = Some conv ->
               conversations (app w') !! i
               = Some (if id conv =? id cur then updated else conv))
         /\ (cur ∈ conversations (app w) -> updated ∈ conversations (app w'))
     | None =>
         exists newConversation,
           messages newConversation = [{| text := draft; isUser := true |}]
           /\ currentConversation (app w') = Some newConversation
           /\ conversations (app w') = conversations (app w) ++ [newConversation]
     end.
Proof.
  intros Hb draft w'.
  destruct (currentConversation (app w)) as [cur|] eqn:Ec; subst w'.
  - rewrite (handleSendMessage_active _ _ Hb Ec). simpl. fold draft.
    repeat split.
    + apply replaceById_length.
    + intros i conv Hi. now apply replaceById_lookup.
    + apply replaceById_elem.
  - rewrite (handleSendMessage_fresh _ Hb Ec). simpl. split; [reflexivity|].
    exists {| id := clock w; title := makeTitle draft;
              messages := [sentMessage draft] |}.
    split; [|split]; reflexivity.
Qed.

Lemma send_appends_one_user_message_witness :
  blank (inputText (app typedPadded)) = false
  /\ inputText (app (handleSendMessage typedPadded)) = [].
Proof.
  split; [reflexivity|].
  exact (proj1 (send_appends_one_user_message typedPadded eq_refl)).
Defined.

(** C5: sending a draft that is empty or white space only changes
    nothing: the conversations, the active conversation, the draft and
    the pending replies stay as they are, and the handler returns
    normally. *)
Theorem blank_send_changes_nothing (w : World) :
  blank (inputText (app w)) = true ->
  handleSendMessage w = w
  /\ conversations (app (handleSendMessage w)) = conversations (app w)
  /\ currentConversation (app (handleSendMessage w)) = currentConversation (app w)
  /\ inputText (app (handleSendMessage w)) = inputText (app w)
  /\ pending (handleSendMessage w) = pending w.
Proof.
  intros Hb. now rewrite handleSendMessage_blank.
Qed.

Lemma blank_send_changes_nothing_witness :
  let w := run [Type_ [32; 9; 160]] typedPadded in
  blank (inputText (app w)) = true /\ handleSendMessage w = w.
Proof.
  intros w. split; [reflexivity|].
  exact (proj1 (blank_send_changes_nothing w eq_refl)).
Defined.

(** C10: the draft is stored as typed. [trim] only decides whether to
    send; the user message appended by the send carries the draft with
    its leading and trailing white space, and the reply the send
    schedules is ["You said: "] followed by that same untrimmed draft,
    whatever the state is when the timer runs. *)
Theorem send_keeps_draft_verbatim (w : World) :
  blank (inputText (app w)) = false ->
  let draft := inputText (app w) in
  let w' := handleSendMessage w in
  exists conv tm,
    currentConversation (app w') = Some conv
    /\ last (messages conv) = Some {| text := draft; isUser := true |}
    /\ (currentConversation (app w) = None ->
        last (conversations (app w')) = Some conv)
    /\ (forall cur, currentConversation (app w) = Some cur ->
        cur ∈ conversations (app w) -> conv ∈ conversations (app w'))
    /\ pending w' = pending w ++ [tm]
    /\ botResponse tm = {| text := lit "You said: " ++ draft; isUser := false |}
    /\ forall cur st,
         currentConversation (app w) = Some cur ->
         exists replied,
           currentConversation (timeoutCallback tm st) = Some replied
           /\ messages replied
              = messages cur ++ [{| text := draft; isUser := true |};
                                 {| text := lit "You said: " ++ draft;
                                    isUser := false |}].
Proof.
  intros Hb draft w'.
  destruct (currentConversation (app w)) as [cur|] eqn:Ec; subst w'.
  - rewrite (handleSendMessage_active _ _ Hb Ec). simpl. fold draft.
    eexists _, _. repeat split.
    + simpl. apply last_snoc.
    + discriminate.
    + intros cur' [= <-]. apply replaceById_elem.
    + intros cur' st [= <-]. erewrite timeoutCallback_active by exact Ec.
      eexists. split; reflexivity.
  - rewrite (handleSendMessage_fresh _ Hb Ec). simpl. fold draft.
    eexists _, _. repeat split.
    + intros _. apply last_snoc.
    + discriminate.
    + discriminate.
Qed.

Lemma send_keeps_draft_verbatim_witness :
  blank (inputText (app typedPadded)) = false
  /\ trim (inputText (app typedPadded)) <> inputText (app typedPadded)
  /\ exists conv tm,
       currentConversation (app (handleSendMessage typedPadded)) = Some conv
       /\ last (messages conv)
          = Some {| text := lit "  hi there "; isUser := true |}
       /\ pending (handleSendMessage typedPadded) = pending typedPadded ++ [tm]
       /\ botResponse tm
          = {| text := lit "You said:   hi there "; isUser := false |}.
Proof.
  split; [reflexivity|]. split; [discriminate|].
  destruct (send_keeps_draft_verbatim typedPadded eq_refl)
    as (conv & tm & H1 & H2 & _ & _ & H5 & H6 & _).
  exists conv, tm. repeat split; assumption.
Defined.

(** ** The conversation list *)

(** [selectConversation] does not look its argument up: on the freshly
    mounted component, selecting a conversation with id 7 makes it active
    although the list is empty. *)
Lemma select_absent_not_noop :
  ~ selectAbsentIsNoop {| id := 7; title := lit "x"; messages := [] |}
                       (initial 0 true).
Proof.
  intros H. unfold selectAbsentIsNoop in H.
  assert (Hnone : forall c : Conversation,
             c ∈ conversations (app (initial 0 true)) -> id c <> 7).
  { intros c Hc. simpl in Hc. now apply elem_of_nil in Hc. }
  specialize (H Hnone). discriminate H.
Qed.

(** C7, as the code has it: [selectConversation] takes a conversation,
    not an id, and makes it the active one without consulting the list,
    so also when no stored conversation has its id; the conversation
    list, the draft, the listening flag, the pending replies and the
    clock are untouched, and it always returns. *)
Theorem select_sets_active_unconditionally
        (conversation : Conversation) (w : World) :
  let w' := selectConversation conversation w in
  currentConversation (app w') = Some conversation
  /\ conversations (app w') = conversations (app w)
  /\ inputText (app w') = inputText (app w)
  /\ isListening (app w') = isListening (app w)
  /\ pending w' = pending w
  /\ clock w' = clock w.
Proof. repeat split. Qed.

(** ** Speech input *)

(** C9: a recognition result event sets the draft to the transcripts of
    the event's results, first alternative of each, joined in order:
    final and interim results alike, one more segment as the result list
    grows. The draft held before plays no part: it is replaced, never
    extended, and nothing but the draft changes. *)
Theorem speech_result_overwrites_draft
        (event : SpeechRecognitionEvent) (w : World) :
  let w' := onresult event w in
  inputText (app w')
  = concat (map (fun r => transcript (item0 r)) (results event))
  /\ (forall draft, onresult event (onChange draft w) = w')
  /\ (forall draft, draft <> [] ->
        inputText (app (onresult event (onChange draft w)))
        <> draft ++ eventTranscript event)
  /\ eventTranscript {| results := [] |} = []
  /\ (forall seen r,
        eventTranscript {| results := seen ++ [r] |}
        = eventTranscript {| results := seen |} ++ transcript (item0 r))
  /\ conversations (app w') = conversations (app w)
  /\ currentConversation (app w') = currentConversation (app w)
  /\ isListening (app w') = isListening (app w)
  /\ pending w' = pending w.
Proof.
  repeat split.
  - intros draft Hne Heq. simpl in Heq.
    apply (f_equal length) in Heq. rewrite length_app in Heq.
    destruct draft; [congruence|simpl in Heq; lia].
  - intros seen r. unfold eventTranscript. simpl.
    now rewrite fmap_app, concat_app; simpl; rewrite app_nil_r.
Qed.

(** ** The delayed reply *)

(** A reply whose timer is the last one set, fired by [elapse]: it ends
    with the callback's two cells, built from the snapshot alone. *)
Lemma elapse_reply dt w old tm cur :
  pending w = old ++ [tm] -> due tm <= clock w + dt ->
  currentConversation (scope tm) = Some cur ->
  let replied := withMessages cur [newMessage tm; botResponse tm] in
  currentConversation (app (elapse dt w)) = Some replied
  /\ conversations (app (elapse dt w))
     = replaceById cur replied (conversations (scope tm))
  /\ inputText (app (elapse dt w)) = inputText (app w)
  /\ pending (elapse dt w)
     = filter (fun tm => isDue (clock w + dt) tm <> true) old.
Proof.
  intros Hp Hd Hc replied.
  destruct (elapse_last_due _ _ _ _ Hp Hd) as [Happ Hpend].
  rewrite Happ, Hpend, (timeoutCallback_active _ _ _ Hc). simpl.
  now rewrite fire_inputText.
Qed.

Example draftForA_state :
  conversations (app draftForA) = [conversationA; conversationB]
  /\ currentConversation (app draftForA) = Some conversationA
  /\ inputText (app draftForA) = lit "x"
  /\ pending draftForA = [].
Proof. repeat split. Qed.

(** On [draftForA]: the draft is sent into conversation A, B is selected,
    the reply fires. B is stored as it was; A holds the exchange. *)
Lemma reply_does_not_follow_active :
  ~ replyFollowsActive conversationB draftForA.
Proof.
  intros (c & Hin & Hid & Hm).
  assert (E : conversations
                (app (elapse 1000 (selectConversation conversationB
                                     (handleSendMessage draftForA))))
              = [withMessages conversationA
                   [sentMessage (lit "x"); echoMessage (lit "x")];
                 conversationB]) by reflexivity.
  rewrite E in Hin.
  apply elem_of_cons in Hin as [->|Hin]; [discriminate Hid|].
  apply list_elem_of_singleton in Hin as ->. discriminate Hm.
Qed.

(** C3, as the code has it: when the active conversation is switched
    between a send into conversation [cur] and that send's reply, the
    reply is written from the snapshot taken at the send, not to what is
    active when it fires. The entries of the send-time list with [cur]'s
    id become [cur]'s send-time messages followed by the user message,
    once, and the reply; the entries with any other id, the conversation
    switched to among them, are stored as they were at the send. *)
Theorem reply_goes_to_send_time_conversation
        (w : World) (cur other : Conversation) (dt1 dt2 : N) :
  blank (inputText (app w)) = false ->
  currentConversation (app w) = Some cur ->
  dt1 < 1000 -> dt1 + dt2 = 1000 ->
  let draft := inputText (app w) in
  let w' := elapse dt2 (selectConversation other
                          (elapse dt1 (handleSendMessage w))) in
  let replied := withMessages cur [sentMessage draft; echoMessage draft] in
  messages replied
  = messages cur ++ [{| text := draft; isUser := true |};
                     {| text := lit "You said: " ++ draft; isUser := false |}]
  /\ conversations (app w') = replaceById cur replied (conversations (app w))
  /\ (forall i c, conversations (app w) !! i = Some c -> id c = id cur ->
                  conversations (app w') !! i = Some replied)
  /\ (forall i c, conversations (app w) !! i = Some c -> id c <> id cur ->
                  conversations (app w') !! i = Some c)
  /\ (cur ∈ conversations (app w) -> replied ∈ conversations (app w')).
Proof.
  intros Hb Hc Hlt Hsum draft w' replied.
  set (tm := {| due := clock w + 1000; scope := app w;
                newMessage := sentMessage draft |}).
  set (w1 := handleSendMessage w).
  assert (Hp1 : pending w1 = pending w ++ [tm]).
  { unfold w1. now rewrite (handleSendMessage_active _ _ Hb Hc). }
  assert (Hk1 : clock w1 = clock w).
  { unfold w1. now rewrite (handleSendMessage_active _ _ Hb Hc). }
  destruct (elapse_last_early dt1 w1 _ tm Hp1) as [_ Hp2].
  { rewrite Hk1. simpl. lia. }
  set (w3 := selectConversation other (elapse dt1 w1)).
  assert (Hk3 : clock w3 = clock w + dt1) by (simpl; now rewrite Hk1).
  destruct (elapse_reply dt2 w3 _ tm cur Hp2) as (Hcur & Hconvs & _).
  { rewrite Hk3. simpl. lia. }
  { exact Hc. }
  change (elapse dt2 w3) with w' in Hcur, Hconvs.
  change (withMessages cur [newMessage tm; botResponse tm])
    with replied in Hcur, Hconvs.
  change (scope tm) with (app w) in Hconvs.
  split; [reflexivity|]. split; [exact Hconvs|].
  rewrite Hconvs. split; [|split].
  - intros i c Hi He. now apply replaceById_same with (conv := c).
  - intros i c Hi Hne. now apply replaceById_other.
  - apply replaceById_elem.
Qed.

Lemma reply_goes_to_send_time_conversation_witness :
  let w' := elapse 600 (selectConversation conversationB
                          (elapse 400 (handleSendMessage draftForA))) in
  blank (inputText (app draftForA)) = false
  /\ currentConversation (app draftForA) = Some conversationA
  /\ 400 < 1000 /\ 400 + 600 = 1000
  /\ conversations (app w')
     = [withMessages conversationA
          [sentMessage (lit "x"); echoMessage (lit "x")];
        conversationB].
Proof.
  intros w'. split; [reflexivity|]. split; [reflexivity|].
  split; [reflexivity|]. split; [reflexivity|].
  destruct (reply_goes_to_send_time_conversation
              draftForA conversationA conversationB 400 600
              eq_refl eq_refl eq_refl eq_refl) as (_ & H & _).
  exact H.
Defined.

(** A send into the active conversation, left alone for a second: the
    conversation, active and stored, is the send-time one followed by the
    user message and the echo. Before the second is over the reply is
    still pending. *)
Lemma active_send_is_echoed (w : World) (cur : Conversation) :
  blank (inputText (app w)) = false ->
  currentConversation (app w) = Some cur ->
  let draft := inputText (app w) in
  let w' := elapse 1000 (handleSendMessage w) in
  let replied := withMessages cur [sentMessage draft; echoMessage draft] in
  currentConversation (app w') = Some replied
  /\ conversations (app w') = replaceById cur replied (conversations (app w))
  /\ (cur ∈ conversations (app w) -> replied ∈ conversations (app w'))
  /\ inputText (app w') = []
  /\ forall dt, dt < 1000 ->
       last (pending (elapse dt (handleSendMessage w)))
       = Some {| due := clock w + 1000; scope := app w;
                 newMessage := sentMessage draft |}.
Proof.
  intros Hb Hc draft w' replied.
  set (tm := {| due := clock w + 1000; scope := app w;
                newMessage := sentMessage draft |}).
  assert (Hp : pending (handleSendMessage w) = pending w ++ [tm])
    by now rewrite (handleSendMessage_active _ _ Hb Hc).
  assert (Hk : clock (handleSendMessage w) = clock w)
    by now rewrite (handleSendMessage_active _ _ Hb Hc).
  assert (Hi : inputText (app (handleSendMessage w)) = [])
    by now rewrite (handleSendMessage_active _ _ Hb Hc).
  destruct (elapse_reply 1000 _ _ tm cur Hp) as (Hcur & Hconvs & Hin & _).
  { rewrite Hk. simpl. lia. }
  { exact Hc. }
  split; [exact Hcur|]. split; [exact Hconvs|]. split; [|split].
  - unfold w'. rewrite Hconvs. apply replaceById_elem.
  - unfold w'. now rewrite Hin.
  - intros dt Hdt.
    destruct (elapse_last_early dt _ _ tm Hp) as [_ ->]; [|apply last_snoc].
    rewrite Hk. simpl. lia.
Qed.

Lemma active_send_is_echoed_witness :
  blank (inputText (app draftForA)) = false
  /\ currentConversation (app draftForA) = Some conversationA
  /\ currentConversation (app (elapse 1000 (handleSendMessage draftForA)))
     = Some (withMessages conversationA
               [sentMessage (lit "x"); echoMessage (lit "x")]).
Proof.
  split; [reflexivity|]. split; [reflexivity|].
  exact (proj1 (active_send_is_echoed draftForA conversationA eq_refl eq_refl)).
Defined.

(** The reply scheduled by a send that created its conversation closed
    over "no active conversation": its callback changes no state. *)
Lemma fresh_send_reply_is_dropped (w : World) :
  blank (inputText (app w)) = false ->
  currentConversation (app w) = None ->
  exists tm,
    pending (handleSendMessage w) = pending w ++ [tm]
    /\ due tm = clock w + 1000
    /\ forall st, timeoutCallback tm st = st.
Proof.
  intros Hb Hc. rewrite (handleSendMessage_fresh _ Hb Hc). simpl.
  eexists. split; [reflexivity|]. split; [reflexivity|].
  intros st. now apply timeoutCallback_fresh.
Qed.

Lemma fresh_send_reply_is_dropped_witness :
  blank (inputText (app typedHi)) = false
  /\ currentConversation (app typedHi) = None
  /\ exists tm,
       pending (handleSendMessage typedHi) = pending typedHi ++ [tm]
       /\ due tm = clock typedHi + 1000
       /\ forall st, timeoutCallback tm st = st.
Proof.
  split; [reflexivity|]. split; [reflexivity|].
  exact (fresh_send_reply_is_dropped typedHi eq_refl eq_refl).
Defined.

(** C1, at the first send of a session: ["Hi"] is typed into the freshly
    mounted component and sent at time 0. The send creates conversation 0
    and sets a timer due at 1000. When that second has passed the timer
    is gone and the conversation holds the user message alone: no
    ["You said: Hi"] was appended. *)
Theorem first_send_gets_no_reply :
  let sent := handleSendMessage typedHi in
  let later := elapse 1000 sent in
  conversations (app sent)
  = [{| id := 0; title := lit "Hi"; messages := [sentMessage (lit "Hi")] |}]
  /\ (due <$> pending sent) = [1000]
  /\ clock later = 1000
  /\ pending later = []
  /\ conversations (app later)
     = [{| id := 0; title := lit "Hi"; messages := [sentMessage (lit "Hi")] |}]
  /\ currentConversation (app later)
     = Some {| id := 0; title := lit "Hi";
               messages := [sentMessage (lit "Hi")] |}
  /\ Forall (fun c => echoMessage (lit "Hi") ∉ messages c)
            (conversations (app later)).
Proof.
  repeat split. repeat constructor.
  intros H. apply list_elem_of_singleton in H. discriminate H.
Qed.

(** ** Stored messages over time *)

(** C4, on two runs. Two sends 100ms apart: when the first reply fires
    at 2000, the stored conversation is rebuilt from the first send's
    snapshot and the user message ["c"], stored since 1100, is gone; when
    the second reply fires at 2100 the first reply is gone in turn. A
    conversation created while a reply is pending: when the reply fires,
    the list is rebuilt from the older snapshot and the new conversation
    is no longer stored. *)
Theorem pending_reply_overwrites_messages :
  (messages <$> conversations (app twoSendsInFlight)
   = [[sentMessage (lit "Hi"); sentMessage (lit "b"); sentMessage (lit "c")]]
   /\ messages <$> conversations (app (elapse 900 twoSendsInFlight))
      = [[sentMessage (lit "Hi"); sentMessage (lit "b");
          echoMessage (lit "b")]]
   /\ messages <$> conversations (app (elapse 100 (elapse 900 twoSendsInFlight)))
      = [[sentMessage (lit "Hi"); sentMessage (lit "b");
          sentMessage (lit "c"); echoMessage (lit "c")]])
  /\ (messages <$> conversations (app newConversationInFlight)
      = [[sentMessage (lit "Hi"); sentMessage (lit "b")];
         [sentMessage (lit "n")]]
      /\ messages <$> conversations (app (elapse 500 newConversationInFlight))
         = [[sentMessage (lit "Hi"); sentMessage (lit "b");
             echoMessage (lit "b")]]).
Proof. repeat split. Qed.

(** ** Reachable states *)

(** In every state the component reaches, the active conversation is one
    of the stored ones, and every stored conversation starts with a user
    message. *)
Lemma reachable_current_stored (w : World) :
  reachable w ->
  (forall c, currentConversation (app w) = Some c -> c ∈ conversations (app w))
  /\ forall c, c ∈ conversations (app w) ->
       exists m rest, messages c = m :: rest /\ isUser m = true.
Proof.
  intros [[Hall Hcur] _]%reachable_wellFormed. split; [exact Hcur|].
  intros c Hc.
  destruct (proj1 (Forall_forall _ _) Hall c Hc) as (m & rest & Hm & Hu & _).
  now exists m, rest.
Qed.

(** In every state the component reaches, the pending replies are
    listed by due time and none is due later than a second from now, so
    [elapse] runs them in the order the browser would. *)
Lemma reachable_pending_in_order (w : World) :
  reachable w ->
  StronglySorted (fun a b => due a <= due b) (pending w)
  /\ Forall (fun tm => due tm <= clock w + 1000) (pending w).
Proof.
  induction 1 as [t0 speech|a w _ IH _].
  - split; constructor.
  - now apply inOrder_step.
Qed.

Lemma reachable_twoSendsInFlight : reachable twoSendsInFlight.
Proof.
  apply reachable_run.
  - apply (reachable_step (Type_ (lit "Hi")) (initial 0 true));
      [apply reachable_initial|exact I].
  - intros n a Hn.
    repeat (destruct n as [|n]; [injection Hn as <-; exact I|]).
    discriminate Hn.
Qed.

Lemma reachable_current_stored_witness :
  reachable twoSendsInFlight
  /\ forall c, currentConversation (app twoSendsInFlight) = Some c ->
               c ∈ conversations (app twoSendsInFlight).
Proof.
  split; [exact reachable_twoSendsInFlight|].
  exact (proj1 (reachable_current_stored _ reachable_twoSendsInFlight)).
Defined.

Lemma reachable_pending_in_order_witness :
  reachable twoSendsInFlight
  /\ (due <$> pending twoSendsInFlight) = [2000; 2100]
  /\ Forall (fun tm => due tm <= clock twoSendsInFlight + 1000)
            (pending twoSendsInFlight).
Proof.
  split; [exact reachable_twoSendsInFlight|]. split; [reflexivity|].
  exact (proj2 (reachable_pending_in_order _ reachable_twoSendsInFlight)).
Defined.

(** ** Sending twice, and the Enter key *)

(** A send that went through leaves one more timer pending, so it is
    never the identity. *)
Lemma handleSendMessage_pending (w : World) :
  blank (inputText (app w)) = false ->
  length (pending (handleSendMessage w)) = S (length (pending w)).
Proof.
  intros Hb. unfold handleSendMessage. rewrite truthy_trim, Hb. simpl.
  rewrite length_app. simpl. lia.
Qed.

Lemma handleSendMessage_inputText (w : World) :
  blank (inputText (app w)) = false ->
  inputText (app (handleSendMessage w)) = [].
Proof.
  intros Hb. unfold handleSendMessage. now rewrite truthy_trim, Hb.
Qed.

(** Two send events in a row (two clicks, Enter twice), each handled
    by the handler of the render that follows the event before it: the
    second changes nothing more, because the first emptied the draft
    and the guard, reading the re-rendered draft, rejects it. This is
    about two events; one render's handler called twice would read the
    same draft both times, and no event does that. *)
Theorem send_twice_is_send_once (w : World) :
  handleSendMessage (handleSendMessage w) = handleSendMessage w.
Proof.
  destruct (blank (inputText (app w))) eqn:Hb.
  - now rewrite !(handleSendMessage_blank w Hb).
  - apply handleSendMessage_blank.
    now rewrite handleSendMessage_inputText.
Qed.

(** A key press in the input box changes the state exactly when the key
    is Enter and the draft is not blank; it then does what the send
    button does. *)
Theorem key_press_changes_state_iff (key : jsstring) (w : World) :
  (onKeyPress key w <> w
   <-> key = lit "Enter" /\ blank (inputText (app w)) = false)
  /\ (onKeyPress key w <> w -> onKeyPress key w = handleSendMessage w).
Proof.
  unfold onKeyPress. destruct (decide (key = lit "Enter")) as [He|He].
  - split; [|reflexivity]. split.
    + intros Hne. split; [exact He|].
      destruct (blank (inputText (app w))) eqn:Hb; [|reflexivity].
      now rewrite handleSendMessage_blank in Hne.
    + intros [_ Hb] Heq. pose proof (handleSendMessage_pending w Hb) as Hl.
      rewrite Heq in Hl. lia.
  - split; [|congruence]. split; [congruence|]. now intros [? _].
Qed.

(** ** Several replies coming due together *)

Section LastWriter.
Implicit Types (tm : Timeout) (tms : list Timeout) (st : AppState) (w : World).

Lemma timeoutCallback_overwrites tm st st' :
  writes tm = true ->
  inputText st = inputText st' -> isListening st = isListening st' ->
  timeoutCallback tm st = timeoutCallback tm st'.
Proof.
  unfold writes, timeoutCallback.
  destruct (currentConversation (scope tm)); [|discriminate].
  intros _ Hi Hl. unfold setConversations, setCurrentConversation. simpl.
  now rewrite Hi, Hl.
Qed.

Lemma lastWriter_snoc tms tm :
  lastWriter (tms ++ [tm])
  = if writes tm then Some tm else lastWriter tms.
Proof.
  unfold lastWriter. rewrite filter_app.
  destruct (writes tm) eqn:E.
  - rewrite (filter_cons_True _ tm []) by exact E. apply last_snoc.
  - rewrite (filter_cons_False _ tm []) by (rewrite E; discriminate).
    now rewrite filter_nil, app_nil_r.
Qed.

Lemma fire_lastWriter tms st :
  fire tms st
  = match lastWriter tms with
    | Some tm => timeoutCallback tm st
    | None => st
    end.
Proof.
  induction tms as [|tm tms IH] using rev_ind; [reflexivity|].
  rewrite fire_app, lastWriter_snoc. simpl.
  destruct (writes tm) eqn:E.
  - apply timeoutCallback_overwrites;
      [exact E|apply fire_inputText|apply fire_isListening].
  - unfold writes in E. rewrite timeoutCallback_fresh; [exact IH|].
    now destruct (currentConversation (scope tm)).
Qed.
End LastWriter.

(** When time passes, of all the replies that come due only one takes
    effect: the last one set whose send had an active conversation. The
    state afterwards is that reply's callback run on the state before,
    so the conversation list and the active conversation are rebuilt
    from its snapshot alone and what the other replies wrote is lost; if
    no due reply had an active conversation, the state is unchanged. *)
Theorem only_last_due_reply_counts (dt : N) (w : World) :
  let dueNow := filter (fun tm => isDue (clock w + dt) tm = true) (pending w) in
  app (elapse dt w)
  = match lastWriter dueNow with
    | Some tm => timeoutCallback tm (app w)
    | None => app w
    end
  /\ (forall tm cur,
        lastWriter dueNow = Some tm ->
        currentConversation (scope tm) = Some cur ->
        conversations (app (elapse dt w))
        = replaceById cur (withMessages cur [newMessage tm; botResponse tm])
                      (conversations (scope tm))
        /\ currentConversation (app (elapse dt w))
           = Some (withMessages cur [newMessage tm; botResponse tm])).
Proof.
  intros dueNow.
  assert (H : app (elapse dt w)
              = match lastWriter dueNow with
                | Some tm => timeoutCallback tm (app w)
                | None => app w
                end).
  { rewrite elapse_unfold. simpl. apply fire_lastWriter. }
  split; [exact H|]. intros tm cur Hl Hc. rewrite H, Hl.
  now rewrite (timeoutCallback_active _ _ _ Hc).
Qed.

(** ** Time in steps *)

Section ElapseTwice.
Implicit Types (tm : Timeout) (tms : list Timeout) (w : World).

Lemma reachable_inOrder w : reachable w -> inOrder w.
Proof.
  induction 1 as [t0 speech|a w _ IH _].
  - split; constructor.
  - now apply inOrder_step.
Qed.

Lemma filter_none_due t tms :
  Forall (fun tm => t < due tm) tms ->
  filter (fun tm => isDue t tm = true) tms = []
  /\ filter (fun tm => isDue t tm <> true) tms = tms.
Proof.
  induction 1 as [|tm tms Htm _ [IH1 IH2]]; [now split|].
  assert (E : isDue t tm = false) by now apply N.leb_gt.
  rewrite filter_cons_False by (rewrite E; discriminate).
  rewrite filter_cons_True by (rewrite E; discriminate).
  now rewrite IH1, IH2.
Qed.

Lemma filter_due_in_two t1 t2 tms :
  t1 <= t2 ->
  StronglySorted (fun a b => due a <= due b) tms ->
  filter (fun tm => isDue t1 tm = true) tms
  ++ filter (fun tm => isDue t2 tm = true)
            (filter (fun tm => isDue t1 tm <> true) tms)
  = filter (fun tm => isDue t2 tm = true) tms.
Proof.
  intros Hle. induction 1 as [|tm tms Hs IH Hall]; [reflexivity|].
  destruct (isDue t1 tm) eqn:E1.
  - assert (E2 : isDue t2 tm = true).
    { apply N.leb_le. apply N.leb_le in E1. lia. }
    rewrite (filter_cons_True (fun tm => isDue t1 tm = true)) by exact E1.
    rewrite (filter_cons_False (fun tm => isDue t1 tm <> true))
      by (rewrite E1; tauto).
    rewrite (filter_cons_True (fun tm => isDue t2 tm = true)) by exact E2.
    simpl. now rewrite IH.
  - apply N.leb_gt in E1.
    destruct (filter_none_due t1 (tm :: tms)) as [-> ->]; [|reflexivity].
    constructor; [exact E1|].
    eapply Forall_impl; [exact Hall|]. intros tm' H'. simpl in H'. lia.
Qed.

Lemma filter_later_twice t1 t2 tms :
  t1 <= t2 ->
  filter (fun tm => isDue t2 tm <> true)
         (filter (fun tm => isDue t1 tm <> true) tms)
  = filter (fun tm => isDue t2 tm <> true) tms.
Proof.
  intros Hle. induction tms as [|tm tms IH]; [reflexivity|].
  destruct (isDue t2 tm) eqn:E2.
  - rewrite (filter_cons_False (fun tm => isDue t2 tm <> true) tm tms)
      by (rewrite E2; tauto).
    destruct (isDue t1 tm) eqn:E1.
    + now rewrite filter_cons_False by (rewrite E1; tauto).
    + rewrite filter_cons_True by (rewrite E1; discriminate).
      now rewrite filter_cons_False by (rewrite E2; tauto).
  - assert (E1 : isDue t1 tm = false).
    { apply N.leb_gt. apply N.leb_gt in E2. lia. }
    rewrite (filter_cons_True (fun tm => isDue t1 tm <> true))
      by (rewrite E1; discriminate).
    rewrite !filter_cons_True by (rewrite E2; discriminate).
    now rewrite IH.
Qed.
End ElapseTwice.

(** Letting [a] milliseconds pass and then [b] more is letting [a + b]
    pass at once, in every state the component reaches: the replies fire
    in the same order and leave the same state. *)
Theorem elapse_in_two_steps (a b : N) (w : World) :
  reachable w ->
  elapse b (elapse a w) = elapse (a + b) w.
Proof.
  intros [Hs _]%reachable_inOrder.
  rewrite (elapse_unfold b), (elapse_unfold (a + b)), (elapse_unfold a). simpl.
  rewrite <- N.add_assoc. f_equal.
  - rewrite <- fire_app. f_equal.
    apply filter_due_in_two; [lia|exact Hs].
  - apply filter_later_twice. lia.
Qed.

Lemma elapse_in_two_steps_witness :
  reachable twoSendsInFlight
  /\ elapse 100 (elapse 900 twoSendsInFlight) = elapse (900 + 100) twoSendsInFlight.
Proof.
  split; [exact reachable_twoSendsInFlight|].
  exact (elapse_in_two_steps 900 100 _ reachable_twoSendsInFlight).
Defined.

(** A second after any moment, every reply that was pending has fired:
    in every reachable state no timer is set further ahead than 1000ms. *)
Theorem replies_fire_within_a_second (dt : N) (w : World) :
  reachable w -> 1000 <= dt ->
  pending (elapse dt w) = []
  /\ forall a, pending (step a (elapse dt w)) <> [] -> a = Send.
Proof.
  intros [_ Hb]%reachable_inOrder Hdt.
  assert (Hp : pending (elapse dt w) = []).
  { rewrite elapse_unfold. simpl.
    induction Hb as [|tm tms Htm _ IH]; [reflexivity|].
    rewrite filter_cons_False; [exact IH|].
    intros Hn. apply Hn. apply N.leb_le. lia. }
  split; [exact Hp|]. intros a Hne.
  destruct a; try reflexivity; exfalso; apply Hne; try exact Hp.
  - cbn [step]. unfold toggleListening.
    destruct (recognition _); [|exact Hp].
    destruct (isListening _); exact Hp.
  - cbn [step]. rewrite (elapse_unfold dt0). cbn [pending].
    now rewrite Hp.
Qed.

Lemma replies_fire_within_a_second_witness :
  reachable twoSendsInFlight /\ 1000 <= 1000
  /\ pending twoSendsInFlight <> []
  /\ pending (elapse 1000 twoSendsInFlight) = [].
Proof.
  split; [exact reachable_twoSendsInFlight|]. split; [discriminate|].
  split; [discriminate|].
  exact (proj1 (replies_fire_within_a_second 1000 _ reachable_twoSendsInFlight
                  ltac:(discriminate))).
Defined.

(** ** Every echo follows the message it echoes *)

Section Exchanges.
Implicit Types (tm : Timeout) (st : AppState) (w : World) (c : Conversation).

Lemma stateExchanges_update st st0 cur extra :
  stateExchanges st0 -> currentConversation st0 = Some cur ->
  exchanges (messages cur ++ extra) ->
  stateExchanges
    {| conversations :=
         replaceById cur (withMessages cur extra) (conversations st0);
       currentConversation := Some (withMessages cur extra);
       inputText := inputText st;
       isListening := isListening st |}.
Proof.
  intros [Hall _] Hc He. split; simpl.
  - now apply replaceById_Forall.
  - now intros c [= <-].
Qed.

Lemma stateExchanges_timeoutCallback tm st :
  stateExchanges (scope tm) ->
  newMessage tm = sentMessage (inputText (scope tm)) ->
  blank (inputText (scope tm)) = false ->
  stateExchanges st -> stateExchanges (timeoutCallback tm st).
Proof.
  intros Htm Hm Hb Hst.
  destruct (currentConversation (scope tm)) as [cur|] eqn:E.
  - rewrite (timeoutCallback_active _ _ _ E).
    apply stateExchanges_update; [exact Htm|exact E|].
    rewrite Hm. apply exchanges_echo; [|exact Hb].
    exact (proj2 Htm cur E).
  - now rewrite timeoutCallback_fresh.
Qed.

Lemma stateExchanges_fire tms st :
  Forall (fun tm => stateExchanges (scope tm)
                    /\ newMessage tm = sentMessage (inputText (scope tm))
                    /\ blank (inputText (scope tm)) = false) tms ->
  stateExchanges st -> stateExchanges (fire tms st).
Proof.
  intros H. revert st.
  induction H as [|tm tms (H1 & H2 & H3) _ IH]; intros st Hst; [exact Hst|].
  simpl. apply IH. now apply stateExchanges_timeoutCallback.
Qed.

Lemma worldExchanges_step a w :
  worldExchanges w -> offered a w -> worldExchanges (step a w).
Proof.
  intros [Happ Hp] Ho.
  assert (Hkeep : forall f,
             (stateExchanges (app w) -> stateExchanges (f (app w))) ->
             worldExchanges (withApp f w)).
  { intros f Hf. split; simpl; auto. }
  destruct a; simpl in *.
  - apply Hkeep. now intros [? ?].
  - destruct (blank (inputText (app w))) eqn:Hb.
    { rewrite handleSendMessage_blank by exact Hb. now split. }
    assert (Hnew : Forall (fun tm => stateExchanges (scope tm)
                       /\ newMessage tm = sentMessage (inputText (scope tm))
                       /\ blank (inputText (scope tm)) = false)
                     (pending w ++
                      [{| due := clock w + 1000; scope := app w;
                          newMessage := sentMessage (inputText (app w)) |}])).
    { apply Forall_app. split; [exact Hp|]. constructor; [|constructor].
      split; [exact Happ|]. split; [reflexivity|exact Hb]. }
    destruct (currentConversation (app w)) as [cur|] eqn:Ec.
    + rewrite (handleSendMessage_active _ _ Hb Ec). split; [|exact Hnew].
      simpl.
      apply (stateExchanges_update (setInputText [] (app w)) (app w));
        [exact Happ|exact Ec|].
      apply exchanges_user; [exact (proj2 Happ cur Ec)|exact Hb].
    + rewrite (handleSendMessage_fresh _ Hb Ec). split; [|exact Hnew].
      assert (Hone : exchanges [sentMessage (inputText (app w))]).
      { apply (exchanges_user []); [constructor|exact Hb]. }
      split; simpl.
      * apply Forall_app. split; [exact (proj1 Happ)|].
        constructor; [exact Hone|constructor].
      * now intros c [= <-].
  - apply Hkeep. intros [? ?]. split; simpl; [assumption|discriminate].
  - apply Hkeep. intros [Hall ?]. split; simpl; [assumption|].
    intros c [= <-]. exact (proj1 (Forall_forall _ _) Hall _ Ho).
  - unfold toggleListening. destruct (recognition w); [|now split].
    destruct (isListening (app w)); [now split|].
    apply Hkeep. now intros [? ?].
  - apply Hkeep. now intros [? ?].
  - apply Hkeep. now intros [? ?].
  - apply Hkeep. now intros [? ?].
  - rewrite elapse_unfold. split; simpl.
    + apply stateExchanges_fire; [now apply Forall_filter_keep|exact Happ].
    + now apply Forall_filter_keep.
Qed.

Lemma reachable_worldExchanges w : reachable w -> worldExchanges w.
Proof.
  induction 1 as [t0 speech|a w _ IH Ho].
  - split; simpl; [split; simpl|]; [constructor|discriminate|constructor].
  - now apply worldExchanges_step.
Qed.

(** What [exchanges] says message by message. *)
Lemma exchanges_lookup (l : list Message) :
  exchanges l ->
  forall i m, l !! i = Some m ->
    if isUser m then blank (text m) = false
    else exists p,
           (0 < i)%nat /\ l !! (i - 1)%nat = Some p
           /\ isUser p = true /\ text m = lit "You said: " ++ text p.
Proof.
  induction 1 as [|l draft _ IH Hb|l draft _ IH Hb]; intros i m Hi.
  - discriminate Hi.
  - destruct (Nat.lt_ge_cases i (length l)) as [Hlt|Hge].
    + rewrite lookup_app_l in Hi by exact Hlt.
      specialize (IH i m Hi). destruct (isUser m); [exact IH|].
      destruct IH as (p & H0 & Hp & Hrest). exists p.
      split; [exact H0|]. split; [|exact Hrest].
      rewrite lookup_app_l by lia. exact Hp.
    + rewrite lookup_app_r in Hi by exact Hge.
      destruct (i - length l)%nat as [|[|k]] eqn:E; [|discriminate..].
      injection Hi as <-. exact Hb.
  - destruct (Nat.lt_ge_cases i (length l)) as [Hlt|Hge].
    + rewrite lookup_app_l in Hi by exact Hlt.
      specialize (IH i m Hi). destruct (isUser m); [exact IH|].
      destruct IH as (p & H0 & Hp & Hrest). exists p.
      split; [exact H0|]. split; [|exact Hrest].
      rewrite lookup_app_l by lia. exact Hp.
    + rewrite lookup_app_r in Hi by exact Hge.
      destruct (i - length l)%nat as [|[|k]] eqn:E; [| |discriminate].
      * injection Hi as <-. exact Hb.
      * injection Hi as <-. simpl. exists (sentMessage draft).
        split; [lia|]. split; [|now split].
        rewrite lookup_app_r by lia.
        now replace (i - 1 - length l)%nat with 0%nat by lia.
Qed.
End Exchanges.

(** In every state the component reaches, and in every stored
    conversation: a user message is never blank, and a bot message is
    never first, directly follows a user message and reads
    ["You said: "] followed by that message's text. The races between
    sends and replies lose messages, but never leave an echo without its
    message in front of it. *)
Theorem echo_follows_its_message (w : World) (c : Conversation) :
  reachable w -> c ∈ conversations (app w) ->
  forall i m, messages c !! i = Some m ->
    if isUser m then blank (text m) = false
    else exists p,
           (0 < i)%nat /\ messages c !! (i - 1)%nat = Some p
           /\ isUser p = true /\ text m = lit "You said: " ++ text p.
Proof.
  intros [[Hall _] _]%reachable_worldExchanges Hc.
  apply exchanges_lookup.
  exact (proj1 (Forall_forall _ _) Hall c Hc).
Qed.

Lemma echo_follows_its_message_witness :
  let w := elapse 900 twoSendsInFlight in
  let c := withMessages {| id := 0; title := lit "Hi";
                           messages := [sentMessage (lit "Hi")] |}
                        [sentMessage (lit "b"); echoMessage (lit "b")] in
  reachable w /\ c ∈ conversations (app w)
  /\ exists p, messages c !! 1%nat = Some p
               /\ text (echoMessage (lit "b")) = lit "You said: " ++ text p.
Proof.
  intros w c.
  assert (Hr : reachable w).
  { apply (reachable_step (Elapse 900));
      [exact reachable_twoSendsInFlight|exact I]. }
  assert (Hc : c ∈ conversations (app w)) by (apply list_elem_of_singleton; reflexivity).
  split; [exact Hr|]. split; [exact Hc|].
  destruct (echo_follows_its_message w c Hr Hc 2%nat (echoMessage (lit "b")) eq_refl)
    as (p & _ & Hp & _ & Ht).
  exists p. split; [exact Hp|exact Ht].
Defined.

(** ** Ids follow the clock *)

Section Ids.
Implicit Types (tm : Timeout) (st : AppState) (w : World) (c : Conversation).

(** Writing a conversation back by id keeps every id in its place. *)
Lemma replaceById_ids cur extra convs :
  id <$> replaceById cur (withMessages cur extra) convs = id <$> convs.
Proof.
  unfold replaceById. rewrite <- list_fmap_compose.
  apply list_fmap_ext. intros i conv _. simpl.
  destruct (N.eqb_spec (id conv) (id cur)) as [He|_]; [now rewrite He|reflexivity].
Qed.

Lemma stateIds_later t t' st : t <= t' -> stateIds t st -> stateIds t' st.
Proof.
  intros Hle [Hs Hb]. split; [exact Hs|].
  eapply Forall_impl; [exact Hb|]. intros i Hi. simpl in Hi. lia.
Qed.

Lemma stateIds_timeoutCallback t tm st :
  stateIds t (scope tm) -> stateIds t st -> stateIds t (timeoutCallback tm st).
Proof.
  intros Htm Hst. destruct (currentConversation (scope tm)) as [cur|] eqn:E.
  - rewrite (timeoutCallback_active _ _ _ E). unfold stateIds. simpl.
    rewrite replaceById_ids. exact Htm.
  - now rewrite timeoutCallback_fresh.
Qed.

Lemma stateIds_fire t tms st :
  Forall (fun tm => stateIds t (scope tm)) tms ->
  stateIds t st -> stateIds t (fire tms st).
Proof.
  intros H. revert st. induction H as [|tm tms Htm _ IH]; intros st Hst.
  - exact Hst.
  - simpl. apply IH. now apply stateIds_timeoutCallback.
Qed.

(** With the clock as the reading, it is the handler itself. *)
Lemma handleSendMessageAt_clock w :
  handleSendMessageAt (clock w) w = handleSendMessage w.
Proof. reflexivity. Qed.

Lemma worldIdsAt_later t t' w : t <= t' -> worldIdsAt t w -> worldIdsAt t' w.
Proof.
  intros Hle [Happ Hp]. split; [now apply stateIds_later with t|].
  eapply Forall_impl; [exact Hp|]. intros tm. now apply stateIds_later.
Qed.

Lemma worldIdsAt_send t w :
  worldIdsAt t w -> worldIdsAt t (handleSendMessageAt t w).
Proof.
  intros [Happ Hp]. unfold handleSendMessageAt.
  destruct (truthy (trim (inputText (app w)))); [|now split].
  assert (Hnew : Forall (fun tm => stateIds t (scope tm))
                   (pending w ++
                    [{| due := clock w + 1000; scope := app w;
                        newMessage := {| text := inputText (app w);
                                         isUser := true |} |}])).
  { apply Forall_app. split; [exact Hp|]. constructor; [exact Happ|constructor]. }
  split; [|exact Hnew].
  destruct (currentConversation (app w)) as [cur|]; unfold stateIds; simpl.
  - rewrite replaceById_ids. exact Happ.
  - destruct Happ as [Hs Hle]. rewrite fmap_app. simpl. split.
    + apply StronglySorted_app. split; [|split].
      * intros i j Hi Hj. apply list_elem_of_singleton in Hj as ->.
        exact (proj1 (Forall_forall _ _) Hle i Hi).
      * exact Hs.
      * repeat constructor.
    + apply Forall_app. split; [exact Hle|].
      constructor; [lia|constructor].
Qed.

Lemma worldIdsAt_step t a w : worldIdsAt t w -> worldIdsAt t (stepAt (t, a) w).
Proof.
  intros Hw. pose proof Hw as [Happ Hp].
  assert (Hkeep : forall f,
             (forall st, conversations (f st) = conversations st) ->
             worldIdsAt t (withApp f w)).
  { intros f Hf. split; simpl; [|exact Hp].
    unfold stateIds. rewrite Hf. exact Happ. }
  destruct a; unfold stepAt; simpl; try (apply Hkeep; reflexivity).
  - now apply worldIdsAt_send.
  - unfold toggleListening. destruct (recognition w); [|exact Hw].
    destruct (isListening (app w)); [exact Hw|]. now apply Hkeep.
  - rewrite elapse_unfold. split; simpl.
    + apply stateIds_fire; [now apply Forall_filter_keep|exact Happ].
    + now apply Forall_filter_keep.
Qed.

(** Readings that never decrease keep the ids in order. *)
Lemma worldIdsAt_run events :
  forall t w,
    worldIdsAt t w ->
    StronglySorted N.le (t :: events.*1) ->
    worldIdsAt (default t (last (events.*1))) (runAt events w).
Proof.
  induction events as [|[s a] rest IH]; intros t w Hw Hs; [exact Hw|].
  simpl in Hs. apply StronglySorted_inv in Hs as [Hs Hall].
  apply Forall_cons in Hall as [Hts Hall].
  change (runAt ((s, a) :: rest) w) with (runAt rest (stepAt (s, a) w)).
  specialize (IH s (stepAt (s, a) w)).
  replace (default t (last (((s, a) :: rest).*1)))
    with (default s (last (rest.*1)))
    by (rewrite fmap_cons, last_cons; now destruct (last (rest.*1))).
  apply IH; [|exact Hs].
  apply worldIdsAt_step. now apply worldIdsAt_later with t.
Qed.

(** Events other than a send and the passing of time leave the stored
    conversations, the timers and the clock alone. *)
Lemma quiet_step a w :
  quiet a = true ->
  conversations (app (step a w)) = conversations (app w)
  /\ pending (step a w) = pending w
  /\ clock (step a w) = clock w.
Proof.
  destruct a; try discriminate; intros _; try (repeat split; reflexivity).
  simpl. unfold toggleListening. destruct (recognition w); [|now repeat split].
  now destruct (isListening (app w)).
Qed.

Lemma quiet_run trace w :
  forallb quiet trace = true ->
  conversations (app (run trace w)) = conversations (app w)
  /\ pending (run trace w) = pending w
  /\ clock (run trace w) = clock w.
Proof.
  revert w. induction trace as [|a trace IH]; intros w H; [now repeat split|].
  simpl in H. apply andb_true_iff in H as [Ha Ht].
  change (run (a :: trace) w) with (run trace (step a w)).
  destruct (IH (step a w) Ht) as (-> & -> & ->). now apply quiet_step.
Qed.
(** A stored id is at most some reading taken so far. *)
Lemma ids_bounded_by_last_reading t0 speech events :
  StronglySorted N.le (events.*1) ->
  forall c, c ∈ conversations (app (runAt events (initial t0 speech))) ->
    exists reading, reading ∈ events.*1 /\ id c <= reading.
Proof.
  intros Hs c Hc.
  destruct (worldIdsAt_run events 0 (initial t0 speech)) as [[_ Hle] _].
  - split; [split; constructor|constructor].
  - constructor; [exact Hs|]. apply Forall_forall. intros; lia.
  - pose proof (proj1 (Forall_forall _ _) Hle (id c)
                  (list_elem_of_fmap_2 id _ _ Hc)) as Hb.
    simpl in Hb. destruct (last (events.*1)) as [r|] eqn:El.
    + exists r. split; [now apply last_Some_elem_of|exact Hb].
    + apply last_None in El. destruct events; [|discriminate El].
      now apply elem_of_nil in Hc.
Qed.
End Ids.

(** When the wall clock is set back between two sends, the ids no
    longer ascend. *)
Example ids_descend_when_clock_set_back :
  id <$> conversations
           (app (runAt [(5000, Type_ (lit "a")); (5000, Send);
                        (1000, NewConversation); (1000, Type_ (lit "b"));
                        (1000, Send)]
                       (initial 0 true)))
  = [5000; 1000].
Proof. reflexivity. Qed.

(** If the readings of [Date.now()] never decrease from one event to
    the next, then after any events since the component was mounted the
    stored conversations are listed by ascending id, and no id is later
    than the last reading: the sidebar shows them oldest first, also
    after a reply has rebuilt the list from an older snapshot. *)
Theorem ids_ascend_with_the_readings
        (t0 : N) (speech : bool) (events : list (N * Action)) :
  StronglySorted N.le (events.*1) ->
  let w := runAt events (initial t0 speech) in
  StronglySorted N.le (id <$> conversations (app w))
  /\ forall c, c ∈ conversations (app w) ->
               id c <= default 0 (last (events.*1)).
Proof.
  intros Hs w.
  destruct (worldIdsAt_run events 0 (initial t0 speech)) as [[Hsorted Hle] _].
  - split; [split; constructor|constructor].
  - constructor; [exact Hs|]. apply Forall_forall. intros; lia.
  - split; [exact Hsorted|]. intros c Hc.
    apply (proj1 (Forall_forall _ _) Hle).
    now apply (list_elem_of_fmap_2 id).
Qed.

Lemma ids_ascend_with_the_readings_witness :
  let events := [(0, Type_ (lit "a")); (0, Send); (700, Elapse 700);
                 (700, Type_ (lit "b")); (700, Send);
                 (700, NewConversation); (700, Type_ (lit "c")); (700, Send);
                 (1700, Elapse 1000)] in
  StronglySorted N.le (events.*1)
  /\ id <$> conversations (app (runAt events (initial 0 true))) = [0]
  /\ StronglySorted N.le
       (id <$> conversations (app (runAt events (initial 0 true)))).
Proof.
  intros events.
  assert (Hs : StronglySorted N.le (events.*1)).
  { repeat (constructor; [|repeat constructor; discriminate]). constructor. }
  split; [exact Hs|]. split; [reflexivity|].
  exact (proj1 (ids_ascend_with_the_readings 0 true events Hs)).
Defined.

(** If the readings of [Date.now()] never decrease, a conversation
    created under a reading later than every reading before it gets an
    id larger than every stored one, whatever was typed, selected, said
    or replied before: its sidebar key is not shared. *)
Theorem later_reading_gives_fresh_id
        (t0 : N) (speech : bool) (events : list (N * Action)) (stamp : N) :
  StronglySorted N.le (events.*1) ->
  Forall (fun reading => reading < stamp) (events.*1) ->
  let w := runAt events (initial t0 speech) in
  blank (inputText (app w)) = false ->
  currentConversation (app w) = None ->
  exists newConversation,
    conversations (app (handleSendMessageAt stamp w))
    = conversations (app w) ++ [newConversation]
    /\ id newConversation = stamp
    /\ (forall c, c ∈ conversations (app w) -> id c < id newConversation)
    /\ id newConversation ∉ (id <$> conversations (app w)).
Proof.
  intros Hs Hlt w Hb Hc.
  assert (Hold : forall c, c ∈ conversations (app w) -> id c < stamp).
  { intros c Hin.
    destruct (ids_bounded_by_last_reading t0 speech events Hs c Hin)
      as (reading & Hr & Hle).
    pose proof (proj1 (Forall_forall _ _) Hlt reading Hr) as Hrs.
    simpl in Hrs. lia. }
  unfold handleSendMessageAt. rewrite truthy_trim, Hb, Hc. simpl.
  eexists. split; [reflexivity|]. simpl. split; [reflexivity|].
  split; [exact Hold|].
  intros (c & He & Hin)%list_elem_of_fmap. specialize (Hold c Hin). lia.
Qed.

Lemma later_reading_gives_fresh_id_witness :
  let events := [(0, Type_ (lit "Hi")); (0, Send); (0, NewConversation);
                 (0, Type_ (lit "again"))] in
  let w := runAt events (initial 0 true) in
  StronglySorted N.le (events.*1)
  /\ Forall (fun reading => reading < 1) (events.*1)
  /\ blank (inputText (app w)) = false
  /\ currentConversation (app w) = None
  /\ exists newConversation,
       conversations (app (handleSendMessageAt 1 w))
       = conversations (app w) ++ [newConversation]
       /\ id newConversation ∉ (id <$> conversations (app w)).
Proof.
  intros events w.
  assert (Hs : StronglySorted N.le (events.*1)).
  { repeat (constructor; [|repeat constructor; discriminate]). constructor. }
  assert (Hlt : Forall (fun reading => reading < 1) (events.*1))
    by (repeat constructor).
  split; [exact Hs|]. split; [exact Hlt|].
  split; [reflexivity|]. split; [reflexivity|].
  destruct (later_reading_gives_fresh_id 0 true events 1 Hs Hlt eq_refl eq_refl)
    as (c & H1 & _ & _ & H4).
  exists c. split; [exact H1|exact H4].
Defined.

(** Only sends and replies write the conversation list: any run of
    other events (typing, speech, the microphone button, New
    Conversation, selecting) leaves the stored conversations, the
    pending replies and the clock as they were; and if the run stays in
    the input box and the microphone, the active conversation too. *)
Theorem only_sends_and_replies_write_the_list (trace : list Action) (w : World) :
  forallb quiet trace = true ->
  conversations (app (run trace w)) = conversations (app w)
  /\ pending (run trace w) = pending w
  /\ clock (run trace w) = clock w
  /\ (forallb inputOnly trace = true ->
      currentConversation (app (run trace w)) = currentConversation (app w)).
Proof.
  intros Hq. destruct (quiet_run trace w Hq) as (H1 & H2 & H3).
  split; [exact H1|]. split; [exact H2|]. split; [exact H3|].
  clear. revert w. induction trace as [|a trace IH]; intros w H; [reflexivity|].
  simpl in H. apply andb_true_iff in H as [Ha Ht].
  change (run (a :: trace) w) with (run trace (step a w)).
  rewrite (IH _ Ht). destruct a; try discriminate; try reflexivity.
  simpl. unfold toggleListening. destruct (recognition w); [|reflexivity].
  now destruct (isListening (app w)).
Qed.

Lemma only_sends_and_replies_write_the_list_witness :
  let trace := [ToggleListening;
                SpeechResult {| results :=
                  [{| isFinal := false;
                      item0 := {| transcript := lit "hello" |};
                      alternatives := [] |}] |};
                SpeechEnd; NewConversation; Select conversationB] in
  forallb quiet trace = true
  /\ conversations (app (run trace draftForA)) = conversations (app draftForA).
Proof.
  intros trace. split; [reflexivity|].
  exact (proj1 (only_sends_and_replies_write_the_list trace draftForA eq_refl)).
Defined.

(** ** The microphone *)

Lemma step_recognition (a : Action) (w : World) :
  recognition (step a w) = recognition w.
Proof.
  destruct a; try reflexivity; simpl.
  - unfold handleSendMessage.
    now destruct (truthy (trim (inputText (app w)))).
  - unfold toggleListening. destruct (recognition w) eqn:E; [|exact E].
    destruct (isListening (app w)); exact E.
Qed.

Lemma step_isListening (a : Action) (w : World) :
  isListening (app (step a w)) = true ->
  isListening (app w) = true \/ recognition w = true.
Proof.
  destruct a; simpl; try (now left); try discriminate.
  - unfold handleSendMessage.
    destruct (truthy (trim (inputText (app w)))); [|now left].
    simpl. destruct (currentConversation (app w)); now left.
  - unfold toggleListening. destruct (recognition w); [now right|now left].
  - rewrite fire_isListening. now left.
Qed.

Lemma reachable_listening (w : World) :
  reachable w -> isListening (app w) = true -> recognition w = true.
Proof.
  induction 1 as [t0 speech|a w _ IH _]; [discriminate|].
  rewrite step_recognition. intros [H|H]%step_isListening; auto.
Qed.

(** The listening indicator is never on in a browser without speech
    recognition, in any state the component reaches; and the microphone
    button alone never turns it off: it is on afterwards exactly when it
    was on before or recognition is available, so pressing it twice is
    pressing it once. *)
Theorem listening_needs_recognition (w : World) :
  (reachable w -> isListening (app w) = true -> recognition w = true)
  /\ isListening (app (toggleListening w))
     = isListening (app w) || recognition w
  /\ toggleListening (toggleListening w) = toggleListening w.
Proof.
  split; [apply reachable_listening|]. unfold toggleListening.
  destruct (recognition w) eqn:E, (isListening (app w)) eqn:L;
    simpl; rewrite ?E, ?L; simpl; rewrite ?E, ?L; auto.
Qed.

Lemma listening_needs_recognition_witness :
  let w := run [ToggleListening; Type_ (lit "x"); Send; ToggleListening]
               (initial 0 false) in
  reachable w /\ isListening (app w) = false.
Proof.
  intros w.
  assert (Hr : reachable w).
  { apply reachable_run; [apply reachable_initial|].
    intros n a Hn.
    repeat (destruct n as [|n]; [injection Hn as <-; exact I|]).
    discriminate Hn. }
  split; [exact Hr|].
  destruct (listening_needs_recognition w) as (H & _).
  destruct (isListening (app w)) eqn:E; [|reflexivity].
  discriminate (H Hr eq_refl).
Defined.

(** ** The view *)

Section View.
Implicit Types (st : AppState) (w : World) (conv : Conversation).

Lemma renderEntry_highlighted st conv :
  entryClass (renderEntry st conv) = highlightedClass
  <-> isCurrent st conv = true.
Proof.
  unfold renderEntry. simpl. destruct (isCurrent st conv).
  - split; reflexivity.
  - split; discriminate.
Qed.

Lemma isCurrent_iff st conv :
  isCurrent st conv = true
  <-> exists cur, currentConversation st = Some cur /\ id cur = id conv.
Proof.
  unfold isCurrent. destruct (currentConversation st) as [cur|].
  - rewrite N.eqb_eq. split; [now exists cur|]. now intros (? & [= <-] & ?).
  - split; [discriminate|]. now intros (? & ? & _).
Qed.

Lemma renderSidebar_lookup st i entry :
  renderSidebar st !! i = Some entry ->
  exists conv, conversations st !! i = Some conv /\ entry = renderEntry st conv.
Proof.
  unfold renderSidebar. rewrite list_lookup_fmap.
  destruct (conversations st !! i) as [conv|]; [|discriminate].
  intros [= <-]. now exists conv.
Qed.

Lemma imap_bubbleText (l : list Message) :
  bubbleText <$> imap renderMessage l = text <$> l.
Proof.
  apply list_eq. intros k.
  rewrite !list_lookup_fmap, list_lookup_imap. now destruct (l !! k).
Qed.

Lemma imap_rowKey (l : list Message) :
  rowKey <$> imap renderMessage l = seq 0 (length l).
Proof.
  apply list_eq. intros k. rewrite list_lookup_fmap, list_lookup_imap.
  destruct (l !! k) as [m|] eqn:E; simpl.
  - symmetry. apply lookup_seq. split; [reflexivity|].
    now apply lookup_lt_Some with m.
  - symmetry. apply lookup_seq_ge. now apply lookup_ge_None.
Qed.

Lemma renderMessages_lookup st cur i row :
  currentConversation st = Some cur ->
  renderMessages st !! i = Some row ->
  exists m, messages cur !! i = Some m /\ row = renderMessage i m.
Proof.
  intros Hc. unfold renderMessages. rewrite Hc, list_lookup_imap.
  destruct (messages cur !! i) as [m|]; [|discriminate].
  intros [= <-]. now exists m.
Qed.
End View.

(** The sidebar, in every state the component reaches: one entry per
    stored conversation, in order, labelled with its title (never more
    than 33 code units) and keyed by its id. An entry is highlighted
    exactly when its conversation has the active conversation's id; when
    a conversation is active it has a highlighted entry of its own, and
    when none is, no entry is highlighted. *)
Theorem sidebar_highlights_active (w : World) :
  reachable w ->
  length (renderSidebar (app w)) = length (conversations (app w))
  /\ (forall i entry,
        renderSidebar (app w) !! i = Some entry ->
        exists conv,
          conversations (app w) !! i = Some conv
          /\ entryClick entry = conv
          /\ entryKey entry = id conv
          /\ entryLabel entry = title conv
          /\ (length (entryLabel entry) <= 33)%nat
          /\ (entryClass entry = highlightedClass
              <-> exists cur, currentConversation (app w) = Some cur
                              /\ id cur = id conv))
  /\ (forall cur,
        currentConversation (app w) = Some cur ->
        exists i entry,
          renderSidebar (app w) !! i = Some entry
          /\ entryClick entry = cur
          /\ entryClass entry = highlightedClass)
  /\ (currentConversation (app w) = None ->
      forall entry, entry ∈ renderSidebar (app w) ->
                    entryClass entry <> highlightedClass).
Proof.
  intros [[Hall Hcur] _]%reachable_wellFormed.
  split; [apply length_fmap|]. split; [|split].
  - intros i entry (conv & Hi & ->)%renderSidebar_lookup.
    exists conv. repeat split; try exact Hi.
    + simpl.
      destruct (proj1 (Forall_forall _ _) Hall conv
                  (list_elem_of_lookup_2 _ _ _ Hi)) as (m & rest & _ & _ & ->).
      apply makeTitle_length.
    + intros H. now apply isCurrent_iff, renderEntry_highlighted.
    + intros H. now apply renderEntry_highlighted, isCurrent_iff.
  - intros cur Hc.
    destruct (proj1 (list_elem_of_lookup _ _) (Hcur cur Hc)) as [i Hi].
    exists i, (renderEntry (app w) cur). split; [|split; [reflexivity|]].
    + unfold renderSidebar. now rewrite list_lookup_fmap, Hi.
    + apply renderEntry_highlighted, isCurrent_iff. now exists cur.
  - intros Hc entry [i Hi]%list_elem_of_lookup.
    apply renderSidebar_lookup in Hi as (conv & _ & ->).
    intros (cur & Hcur' & _)%renderEntry_highlighted%isCurrent_iff.
    congruence.
Qed.

Lemma sidebar_highlights_active_witness :
  reachable twoSendsInFlight
  /\ exists i entry,
       renderSidebar (app twoSendsInFlight) !! i = Some entry
       /\ entryClass entry = highlightedClass.
Proof.
  split; [exact reachable_twoSendsInFlight|].
  destruct (sidebar_highlights_active _ reachable_twoSendsInFlight)
    as (_ & _ & H & _).
  destruct (H _ eq_refl) as (i & entry & H1 & _ & H3).
  now exists i, entry.
Defined.

(** Clicking a sidebar entry selects a stored conversation (so the
    click is always one the component offers); afterwards the message
    pane shows that conversation's messages, in order and keyed 0, 1,
    2, ..., and the clicked entry is highlighted under the same label. *)
Theorem clicking_an_entry_opens_it (w : World) (i : nat) (entry : SidebarEntry) :
  renderSidebar (app w) !! i = Some entry ->
  let w' := selectConversation (entryClick entry) w in
  offered (Select (entryClick entry)) w
  /\ bubbleText <$> renderMessages (app w')
     = text <$> messages (entryClick entry)
  /\ rowKey <$> renderMessages (app w')
     = seq 0 (length (messages (entryClick entry)))
  /\ exists entry',
       renderSidebar (app w') !! i = Some entry'
       /\ entryClass entry' = highlightedClass
       /\ entryLabel entry' = entryLabel entry
       /\ entryClick entry' = entryClick entry.
Proof.
  intros (conv & Hi & ->)%renderSidebar_lookup w'. simpl.
  split; [now apply list_elem_of_lookup_2 with i|].
  unfold renderMessages. simpl. split; [|split].
  - apply imap_bubbleText.
  - apply imap_rowKey.
  - exists (renderEntry (app w') conv). split; [|split; [|split; reflexivity]].
    + unfold renderSidebar. simpl. now rewrite list_lookup_fmap, Hi.
    + apply renderEntry_highlighted. unfold isCurrent. simpl. apply N.eqb_refl.
Qed.

Lemma clicking_an_entry_opens_it_witness :
  let entry := renderEntry (app draftForA) conversationB in
  renderSidebar (app draftForA) !! 1%nat = Some entry
  /\ bubbleText <$> renderMessages
                      (app (selectConversation (entryClick entry) draftForA))
     = [lit "b"].
Proof.
  intros entry. split; [reflexivity|].
  destruct (clicking_an_entry_opens_it draftForA 1 entry eq_refl) as (_ & H & _).
  exact H.
Defined.

(** After a send that went through, the message pane shows what it
    showed before plus exactly one row at the end: right-aligned, blue,
    keyed by its position, with the draft as typed. With no active
    conversation before, that row is the whole pane. The input box is
    empty. *)
Theorem send_adds_one_row (w : World) :
  blank (inputText (app w)) = false ->
  renderMessages (app (handleSendMessage w))
  = renderMessages (app w)
    ++ [{| rowKey := length (renderMessages (app w));
           rowClass := lit "mb-4 text-right";
           bubbleClass := lit "inline-block p-2 rounded-lg bg-blue-500 text-white";
           bubbleText := inputText (app w) |}]
  /\ (currentConversation (app w) = None -> renderMessages (app w) = [])
  /\ inputText (app (handleSendMessage w)) = [].
Proof.
  intros Hb. split; [|split].
  - destruct (currentConversation (app w)) as [cur|] eqn:Ec.
    + rewrite (handleSendMessage_active _ _ Hb Ec).
      unfold renderMessages. rewrite Ec. simpl.
      rewrite imap_app, length_imap. simpl. now rewrite Nat.add_0_r.
    + rewrite (handleSendMessage_fresh _ Hb Ec).
      unfold renderMessages. rewrite Ec. reflexivity.
  - intros Hc. unfold renderMessages. now rewrite Hc.
  - now apply handleSendMessage_inputText.
Qed.

Lemma send_adds_one_row_witness :
  blank (inputText (app typedPadded)) = false
  /\ bubbleText <$> renderMessages (app (handleSendMessage typedPadded))
     = [lit "first"; lit "  hi there "].
Proof.
  split; [reflexivity|].
  rewrite (proj1 (send_adds_one_row typedPadded eq_refl)). reflexivity.
Defined.

(** The message pane, in every state the component reaches: row [i] has
    key [i]; a row is either a right-aligned blue one, or a left-aligned
    grey one that is not the first, sits directly below a right-aligned
    row and reads ["You said: "] followed by that row's text. *)
Theorem pane_shows_exchanges (w : World) (i : nat) (row : MessageRow) :
  reachable w ->
  renderMessages (app w) !! i = Some row ->
  rowKey row = i
  /\ ((rowClass row = lit "mb-4 text-right"
       /\ bubbleClass row
          = lit "inline-block p-2 rounded-lg bg-blue-500 text-white")
      \/ (rowClass row = lit "mb-4 text-left"
          /\ bubbleClass row
             = lit "inline-block p-2 rounded-lg bg-gray-300 text-black"
          /\ exists above,
               (0 < i)%nat
               /\ renderMessages (app w) !! (i - 1)%nat = Some above
               /\ rowClass above = lit "mb-4 text-right"
               /\ bubbleText row = lit "You said: " ++ bubbleText above)).
Proof.
  intros [[_ Hcur] _]%reachable_worldExchanges Hrow.
  destruct (currentConversation (app w)) as [cur|] eqn:Ec;
    [|unfold renderMessages in Hrow; rewrite Ec in Hrow; discriminate].
  destruct (renderMessages_lookup _ _ _ _ Ec Hrow) as (m & Hm & ->).
  split; [reflexivity|].
  pose proof (exchanges_lookup _ (Hcur cur eq_refl) i m Hm) as H.
  unfold renderMessage. simpl. destruct (isUser m); [now left|right].
  split; [reflexivity|]. split; [reflexivity|].
  destruct H as (p & H0 & Hp & Hu & Ht).
  exists (renderMessage (i - 1) p). split; [exact H0|]. split; [|split].
  - unfold renderMessages. now rewrite Ec, list_lookup_imap, Hp.
  - simpl. now rewrite Hu.
  - exact Ht.
Qed.

Lemma pane_shows_exchanges_witness :
  let w := elapse 900 twoSendsInFlight in
  reachable w
  /\ exists row, renderMessages (app w) !! 2%nat = Some row
                 /\ rowKey row = 2%nat
                 /\ bubbleText row = lit "You said: b".
Proof.
  intros w.
  assert (Hr : reachable w).
  { apply (reachable_step (Elapse 900));
      [exact reachable_twoSendsInFlight|exact I]. }
  split; [exact Hr|]. eexists. split; [reflexivity|].
  split; [|reflexivity].
  exact (proj1 (pane_shows_exchanges w 2 _ Hr eq_refl)).
Defined.

(** ** Titles are copied, never computed again *)

Section Titles.
Implicit Types (tm : Timeout) (st : AppState) (w : World) (c : Conversation).

Lemma elem_of_stateKnown st c :
  c ∈ stateKnown st <-> c ∈ conversations st \/ currentConversation st = Some c.
Proof.
  unfold stateKnown. rewrite elem_of_app.
  destruct (currentConversation st) as [cur|]; simpl.
  - rewrite list_elem_of_singleton. split; intros [H|H]; auto.
    + right. now rewrite H.
    + right. now injection H.
  - rewrite elem_of_nil. split; intros [H|H]; auto; [contradiction|discriminate].
Qed.

Lemma elem_of_snapshots (tms : list Timeout) c :
  c ∈ concat ((fun tm => stateKnown (scope tm)) <$> tms)
  <-> exists tm, tm ∈ tms /\ c ∈ stateKnown (scope tm).
Proof.
  induction tms as [|tm tms IH]; simpl.
  - rewrite elem_of_nil. split; [contradiction|].
    now intros (tm & H%elem_of_nil & _).
  - rewrite elem_of_app, IH. split.
    + intros [H|(tm' & H1 & H2)].
      * exists tm. split; [apply elem_of_cons; now left|exact H].
      * exists tm'. split; [apply elem_of_cons; now right|exact H2].
    + intros (tm' & [->|H1]%elem_of_cons & H2); [now left|].
      right. now exists tm'.
Qed.

Lemma elem_of_known w c :
  c ∈ known w
  <-> c ∈ stateKnown (app w)
      \/ exists tm, tm ∈ pending w /\ c ∈ stateKnown (scope tm).
Proof. unfold known. now rewrite elem_of_app, elem_of_snapshots. Qed.

Lemma replaceById_tag cur extra convs c :
  c ∈ replaceById cur (withMessages cur extra) convs ->
  tag c = tag cur \/ c ∈ convs.
Proof.
  unfold replaceById. intros (conv & -> & Hin)%list_elem_of_fmap.
  destruct (id conv =? id cur); [now left|now right].
Qed.

(** What a send into [cur] or a reply to it leaves in the state. *)
Lemma stateKnown_update st st0 cur extra c :
  currentConversation st0 = Some cur ->
  c ∈ stateKnown
        {| conversations :=
             replaceById cur (withMessages cur extra) (conversations st0);
           currentConversation := Some (withMessages cur extra);
           inputText := inputText st;
           isListening := isListening st |} ->
  exists c0, c0 ∈ stateKnown st0 /\ tag c0 = tag c.
Proof.
  intros Hc [Hin|Hcur]%elem_of_stateKnown; simpl in *.
  - apply replaceById_tag in Hin as [Ht|Hin].
    + exists cur. split; [apply elem_of_stateKnown; now right|now symmetry].
    + exists c. split; [apply elem_of_stateKnown; now left|reflexivity].
  - injection Hcur as <-. exists cur.
    split; [apply elem_of_stateKnown; now right|reflexivity].
Qed.

Lemma stateKnown_timeoutCallback tm st c :
  c ∈ stateKnown (timeoutCallback tm st) ->
  exists c0, (c0 ∈ stateKnown st \/ c0 ∈ stateKnown (scope tm)) /\ tag c0 = tag c.
Proof.
  destruct (currentConversation (scope tm)) as [cur|] eqn:E.
  - rewrite (timeoutCallback_active _ _ _ E).
    intros (c0 & H0 & Ht)%(stateKnown_update st (scope tm) cur _ c E).
    exists c0. split; [now right|exact Ht].
  - rewrite timeoutCallback_fresh by exact E. intros H.
    exists c. split; [now left|reflexivity].
Qed.

Lemma stateKnown_fire tms st c :
  c ∈ stateKnown (fire tms st) ->
  exists c0,
    (c0 ∈ stateKnown st \/ exists tm, tm ∈ tms /\ c0 ∈ stateKnown (scope tm))
    /\ tag c0 = tag c.
Proof.
  revert st. induction tms as [|tm tms IH]; intros st Hc.
  - exists c. split; [now left|reflexivity].
  - simpl in Hc. destruct (IH _ Hc) as (c1 & [H1|(tm' & Hin & H1)] & Ht1).
    + destruct (stateKnown_timeoutCallback tm st c1 H1) as (c0 & [H0|H0] & Ht0).
      * exists c0. split; [now left|congruence].
      * exists c0. split; [|congruence].
        right. exists tm. split; [apply elem_of_cons; now left|exact H0].
    + exists c1. split; [|exact Ht1].
      right. exists tm'. split; [apply elem_of_cons; now right|exact H1].
Qed.

(** One event: what is held afterwards carries the id and title of
    something held before, or is the conversation just created. *)
Lemma known_step a w c' :
  offered a w -> c' ∈ known (step a w) ->
  (exists c, c ∈ known w /\ tag c = tag c')
  \/ (creating a w = true
      /\ tag c' = (clock w, makeTitle (inputText (app w)))).
Proof.
  intros Ho Hc'.
  assert (Hsame : forall f,
             (forall c, c ∈ stateKnown (f (app w)) ->
                        c ∈ stateKnown (app w)) ->
             c' ∈ known (withApp f w) ->
             exists c, c ∈ known w /\ tag c = tag c').
  { intros f Hf [H|H]%elem_of_known; exists c'; (split; [|reflexivity]);
      apply elem_of_known; [left; now apply Hf|now right]. }
  assert (Hinput : forall v c, c ∈ stateKnown (setInputText v (app w)) ->
                               c ∈ stateKnown (app w)) by (intros v c H; exact H).
  assert (Hlisten : forall v c, c ∈ stateKnown (setIsListening v (app w)) ->
                                c ∈ stateKnown (app w)) by (intros v c H; exact H).
  destruct a; simpl in Hc'.
  - left. eapply Hsame; [apply Hinput|exact Hc'].
  - destruct (blank (inputText (app w))) eqn:Hb.
    { rewrite handleSendMessage_blank in Hc' by exact Hb.
      left. now exists c'. }
    destruct (currentConversation (app w)) as [cur|] eqn:Ec.
    + left. rewrite (handleSendMessage_active _ _ Hb Ec) in Hc'.
      apply elem_of_known in Hc' as [H|(tm & Htm & H)]; simpl in *.
      * destruct (stateKnown_update (setInputText [] (app w)) (app w) cur _ c' Ec H)
          as (c0 & H0 & Ht).
        exists c0. split; [apply elem_of_known; now left|exact Ht].
      * exists c'. split; [|reflexivity]. apply elem_of_known.
        apply elem_of_app in Htm as [Htm| ->%list_elem_of_singleton].
        -- right. now exists tm.
        -- now left.
    + rewrite (handleSendMessage_fresh _ Hb Ec) in Hc'.
      apply elem_of_known in Hc' as [H|(tm & Htm & H)]; simpl in *.
      * apply elem_of_stateKnown in H as [H|H]; simpl in H.
        -- apply elem_of_app in H as [H| ->%list_elem_of_singleton].
           ++ left. exists c'. split; [|reflexivity].
              apply elem_of_known. left. apply elem_of_stateKnown. now left.
           ++ right. unfold creating. now rewrite Hb, Ec.
        -- injection H as <-. right. unfold creating. now rewrite Hb, Ec.
      * left. exists c'. split; [|reflexivity]. apply elem_of_known.
        apply elem_of_app in Htm as [Htm| ->%list_elem_of_singleton].
        -- right. now exists tm.
        -- now left.
  - left. eapply Hsame; [|exact Hc'].
    intros c [H|H]%elem_of_stateKnown; [|discriminate H].
    apply elem_of_stateKnown. now left.
  - left. eapply Hsame; [|exact Hc'].
    intros c [H|H]%elem_of_stateKnown; apply elem_of_stateKnown; left;
      [exact H|]. simpl in H. injection H as <-. exact Ho.
  - left. unfold toggleListening in Hc'.
    destruct (recognition w); [|now exists c'].
    destruct (isListening (app w)); [now exists c'|].
    eapply Hsame; [apply Hlisten|exact Hc'].
  - left. eapply Hsame; [apply Hinput|exact Hc'].
  - left. eapply Hsame; [apply Hlisten|exact Hc'].
  - left. eapply Hsame; [apply Hlisten|exact Hc'].
  - left. rewrite elapse_unfold in Hc'.
    apply elem_of_known in Hc' as [H|(tm & Htm & H)]; simpl in *.
    + destruct (stateKnown_fire _ _ _ H) as (c0 & [H0|(tm & Htm & H0)] & Ht).
      * exists c0. split; [apply elem_of_known; now left|exact Ht].
      * exists c0. split; [|exact Ht]. apply elem_of_known. right.
        exists tm. split; [|exact H0].
        now apply list_elem_of_filter in Htm as [_ Htm].
    + exists c'. split; [|reflexivity]. apply elem_of_known. right.
      exists tm. split; [|exact H].
      now apply list_elem_of_filter in Htm as [_ Htm].
Qed.

(** A ledger of the ids given out so far with their titles. *)
Lemma fresh_ledger (trace : list Action) :
  forall w used (ledger : list (N * jsstring)),
    (forall c, c ∈ known w -> tag c ∈ ledger) ->
    (forall p, p ∈ ledger -> p.1 ∈ used) ->
    (forall p q, p ∈ ledger -> q ∈ ledger -> p.1 = q.1 -> p.2 = q.2) ->
    freshRun used w trace ->
    exists ledger' : list (N * jsstring),
      (forall p, p ∈ ledger -> p ∈ ledger')
      /\ (forall p q, p ∈ ledger' -> q ∈ ledger' -> p.1 = q.1 -> p.2 = q.2)
      /\ forall n c, c ∈ known (run (take n trace) w) -> tag c ∈ ledger'.
Proof.
  induction trace as [|a rest IH]; intros w used ledger Hk Hu Hf Hrun.
  - exists ledger. split; [auto|]. split; [exact Hf|].
    intros n c. rewrite take_nil. apply Hk.
  - destruct Hrun as [Ho Hrun].
    set (new := (clock w, makeTitle (inputText (app w)))).
    assert (Hnext : exists used1 (ledger1 : list (N * jsstring)),
               (forall p, p ∈ ledger -> p ∈ ledger1)
               /\ (forall c, c ∈ known (step a w) -> tag c ∈ ledger1)
               /\ (forall p, p ∈ ledger1 -> p.1 ∈ used1)
               /\ (forall p q, p ∈ ledger1 -> q ∈ ledger1 ->
                               p.1 = q.1 -> p.2 = q.2)
               /\ freshRun used1 (step a w) rest).
    { destruct (creating a w) eqn:Ecr.
      - destruct Hrun as [Hfresh Hrun].
        exists (clock w :: used), (new :: ledger).
        split; [intros p Hp; apply elem_of_cons; now right|].
        split; [|split; [|split; [|exact Hrun]]].
        + intros c [(c0 & H0 & Ht)|[_ Ht]]%(known_step a w c Ho);
            apply elem_of_cons; [right|left; exact Ht].
          rewrite <- Ht. now apply Hk.
        + intros p [->|Hp]%elem_of_cons; apply elem_of_cons;
            [now left|right; now apply Hu].
        + intros p q [->|Hp]%elem_of_cons [->|Hq]%elem_of_cons Heq.
          * reflexivity.
          * exfalso. apply Hfresh. simpl in Heq. rewrite Heq. now apply Hu.
          * exfalso. apply Hfresh. simpl in Heq. rewrite <- Heq. now apply Hu.
          * now apply Hf.
      - exists used, ledger. split; [auto|].
        split; [|split; [exact Hu|split; [exact Hf|exact Hrun]]].
        intros c [(c0 & H0 & Ht)|[Hcr _]]%(known_step a w c Ho);
          [|congruence].
        rewrite <- Ht. now apply Hk. }
    destruct Hnext as (used1 & ledger1 & Hsub & Hk1 & Hu1 & Hf1 & Hrun1).
    destruct (IH _ _ _ Hk1 Hu1 Hf1 Hrun1) as (ledger' & Hsub' & Hf' & Hall).
    exists ledger'. split; [auto|]. split; [exact Hf'|].
    intros [|n] c Hc.
    + apply Hsub', Hsub, Hk. exact Hc.
    + apply (Hall n). exact Hc.
Qed.
End Titles.

(** A draft of 37 code units is cut after the 30th and gets the dots. *)
Example long_draft_title :
  title <$> conversations (app (handleSendMessage typedLong))
  = [lit "Hello there, how are you today..."].
Proof. reflexivity. Qed.

(** On [sharedIdDraft] the list holds two conversations with id 0,
    titled ["a"] and ["b"]. The send goes into the second and is written
    back by id: the first entry, stored with title ["a"], then carries
    title ["b"]. *)
Lemma shared_id_changes_title : ~ titlesKept Send sharedIdDraft.
Proof.
  intros H.
  specialize (H 0%nat
                {| id := 0; title := lit "a";
                   messages := [sentMessage (lit "a")] |}
                {| id := 0; title := lit "b";
                   messages := [sentMessage (lit "b"); sentMessage (lit "x")] |}
                eq_refl eq_refl).
  discriminate H.
Qed.

(** C6, as the code has it. A send with no active conversation titles
    the new conversation with the first 30 code units of the draft,
    followed by ["..."] exactly when the draft is longer than 30; in
    every state the component reaches each stored title is the one
    computed from the conversation's first message and is at most 33
    long. No later event computes a title: whatever the component holds
    after an event (stored, active, or in the snapshot of a pending
    reply) carries the id and the title, together, of a conversation it
    held before, or is the conversation just created. So in every run in
    which no creation timestamp is used twice, a conversation found
    under an id carries the title every earlier conversation under that
    id carried, whatever was sent, selected or replied in between. *)
Theorem title_fixed_under_its_id (w : World) :
  (let draft := inputText (app w) in
   blank draft = false -> currentConversation (app w) = None ->
   exists newConversation,
     currentConversation (app (handleSendMessage w)) = Some newConversation
     /\ last (conversations (app (handleSendMessage w))) = Some newConversation
     /\ title newConversation
        = take 30 draft ++ (if (30 <? length draft)%nat then lit "..." else [])
     /\ ((length draft <= 30)%nat -> title newConversation = draft)
     /\ (title newConversation = take 30 draft ++ lit "..."
         <-> (30 < length draft)%nat))
  /\ (reachable w ->
      forall c, c ∈ conversations (app w) ->
        (length (title c) <= 33)%nat
        /\ exists m rest,
             messages c = m :: rest
             /\ title c
                = take 30 (text m)
                  ++ (if (30 <? length (text m))%nat then lit "..." else []))
  /\ (forall a c',
        offered a w -> c' ∈ known (step a w) ->
        (exists c, c ∈ known w /\ id c = id c' /\ title c = title c')
        \/ (creating a w = true /\ id c' = clock w
            /\ title c' = makeTitle (inputText (app w))))
  /\ (forall trace,
        oneTitlePerId (known w) -> freshRun (id <$> known w) w trace ->
        oneTitlePerId (known (run trace w))
        /\ forall n c c',
             c ∈ known (run (take n trace) w) ->
             c' ∈ known (run trace w) ->
             id c' = id c -> title c' = title c).
Proof.
  split; [|split; [|split]].
  - intros draft Hb Hc. rewrite (handleSendMessage_fresh _ Hb Hc). simpl.
    fold draft. eexists. split; [reflexivity|]. split; [apply last_snoc|].
    simpl. split; [unfold makeTitle; now rewrite slice_0|].
    split; [apply makeTitle_short|]. split.
    + intros H. destruct (Nat.le_gt_cases (length draft) 30) as [Hl|Hl]; [|exact Hl].
      rewrite makeTitle_short in H by exact Hl.
      apply (f_equal length) in H. rewrite length_app, length_take in H.
      change (length (lit "...")) with 3%nat in H. lia.
    + apply makeTitle_long.
  - intros Hr c Hc. destruct (reachable_wellFormed _ Hr) as [[Hall _] _].
    destruct (proj1 (Forall_forall _ _) Hall c Hc) as (m & rest & Hm & _ & Ht).
    split.
    + rewrite Ht. apply makeTitle_length.
    + exists m, rest. split; [exact Hm|].
      rewrite Ht. unfold makeTitle. now rewrite slice_0.
  - intros a c' Ho Hc'.
    destruct (known_step a w c' Ho Hc') as [(c & Hc & Ht)|[Hcr Ht]].
    + left. exists c. injection Ht as Hi Htt. now repeat split.
    + right. injection Ht as Hi Htt. now repeat split.
  - intros trace Hone Hrun.
    destruct (fresh_ledger trace w (id <$> known w) (tag <$> known w))
      as (ledger & _ & Hf & Hall).
    + intros c Hc. now apply list_elem_of_fmap_2.
    + intros p (c & -> & Hc)%list_elem_of_fmap.
      now apply (list_elem_of_fmap_2 id).
    + intros p q (c1 & -> & H1)%list_elem_of_fmap
             (c2 & -> & H2)%list_elem_of_fmap Heq.
      now apply Hone.
    + exact Hrun.
    + assert (Hend : forall c, c ∈ known (run trace w) -> tag c ∈ ledger).
      { intros c Hc. apply (Hall (length trace)). now rewrite firstn_all. }
      split.
      * intros c1 c2 H1 H2 Heq.
        exact (Hf (tag c1) (tag c2) (Hend _ H1) (Hend _ H2) Heq).
      * intros n c c' Hc Hc' Heq.
        exact (Hf (tag c') (tag c) (Hend _ Hc') (Hall n c Hc) Heq).
Qed.

Lemma title_fixed_under_its_id_witness :
  let trace := [Type_ (lit "a"); Send; Elapse 5; NewConversation;
                Type_ (lit "b"); Send; Select conversationA;
                Type_ (lit "x"); Send; Elapse 1000] in
  let w := initial 0 true in
  oneTitlePerId (known w)
  /\ freshRun (id <$> known w) w trace
  /\ title <$> conversations (app (run (take 6 trace) w)) = [lit "a"; lit "b"]
  /\ title <$> conversations (app (run trace w)) = [lit "a"; lit "b"]
  /\ forall c c',
       c ∈ known (run (take 6 trace) w) -> c' ∈ known (run trace w) ->
       id c' = id c -> title c' = title c.
Proof.
  intros trace w.
  assert (Hone : oneTitlePerId (known w)).
  { intros c1 c2 H1. now apply elem_of_nil in H1. }
  assert (Hrun : freshRun (id <$> known w) w trace).
  { simpl. repeat split; try exact I.
    - apply not_elem_of_nil.
    - apply not_elem_of_cons. split; [discriminate|apply not_elem_of_nil].
    - apply elem_of_cons. now left. }
  split; [exact Hone|]. split; [exact Hrun|].
  split; [reflexivity|]. split; [reflexivity|].
  destruct (title_fixed_under_its_id w) as (_ & _ & _ & H).
  exact (proj2 (H trace Hone Hrun) 6%nat).
Defined.

(** ** New Conversation, then a send *)

Section NewConversation.
Implicit Types (tm : Timeout) (st : AppState) (w : World).


End NewConversation.



